(** * The navigation engine of [useNavigationEngine.ts]

    A shallow embedding of the hook in [src/hooks/useNavigationEngine.ts]:
    the geodesy helpers, the nearest-node scan, the instruction composer,
    and the React state cells driven by the location callbacks.

    Numbers.  The source computes on JavaScript numbers.  The model takes
    exact rationals [Q]: every comparison and every rounding step of the
    source is decidable and evaluates.  The transcendental functions of
    [Math] cannot be written over [Q]; the geodesy section takes them as
    parameters, so the results below hold for every implementation of
    them.  Not-a-number and infinities are outside this model. *)

From Stdlib Require Import ZArith QArith Qround Qabs Lqa Lia.
From Stdlib Require Import List String Ascii Bool DecimalString.
Import ListNotations.

Local Open Scope Q_scope.

(** ** JavaScript numbers and their operators *)

Definition number : Type := Q.

(** [x < y], [x > y] and [x >= y] as the source tests them. *)
Definition ltb (x y : number) : bool :=
  match x ?= y with Lt => true | _ => false end.

Definition gtb (x y : number) : bool := ltb y x.

Definition geb (x y : number) : bool := Qle_bool y x.

(** [Math.round]: the nearest integer, halves going up. *)
Definition Math_round (x : number) : Z := Qfloor (x + (1 # 2)).

(** The remainder operator [x % m]: the quotient is truncated toward zero,
    so the result has the sign of [x]. *)
Definition Qtrunc (x : number) : Z :=
  if ltb x 0 then Qceiling x else Qfloor x.

Definition js_rem (x m : number) : number :=
  x - m * inject_Z (Qtrunc (x / m)).

(** A template literal [${n}] of an integral number: its decimal digits. *)
Definition show_Z (z : Z) : string := NilZero.string_of_int (Z.to_int z).

(** Strings are truthy exactly when they are not empty. *)
Definition truthy (s : string) : bool :=
  match s with EmptyString => false | String _ _ => true end.

(** ** Data model *)

Module GeoPoint.
Record t : Type := mk { latitude : number; longitude : number }.
End GeoPoint.

Module Landmark.
Record t : Type := mk { name : string; description : string }.
End Landmark.

(** The fields of [PathNode] the engine reads.  An optional field is [None]
    when the property is [undefined].  Floor levels are integers, as in
    the route data; the template literal prints them in decimal. *)
Record PathNode : Type := {
  coordinates : GeoPoint.t;
  order : Z;
  instructionText : option string;
  landmark : option Landmark.t;
  floor : option Z;
  isIndoor : bool
}.

Record GPSLocation : Type := {
  latitude : number;
  longitude : number;
  accuracy : number;
  timestamp : number
}.

(** ** Geodesy *)

(** [normalizeBearingDifference]: one correction by a full turn. *)
Definition normalizeBearingDifference (bearing : number) : number :=
  if gtb bearing 180 then bearing - 360
  else if ltb bearing (-180) then bearing + 360
  else bearing.

Section Geodesy.

Variables Math_sin Math_cos Math_sqrt : number -> number.
Variable Math_atan2 : number -> number -> number.
Variable Math_PI : number.

Definition calculateDistance (lat1 lon1 lat2 lon2 : number) : number :=
  let R := 6371000 in
  let dLat := ((lat2 - lat1) * Math_PI) / 180 in
  let dLon := ((lon2 - lon1) * Math_PI) / 180 in
  let a :=
    Math_sin (dLat / 2) * Math_sin (dLat / 2) +
    Math_cos ((lat1 * Math_PI) / 180) *
      Math_cos ((lat2 * Math_PI) / 180) *
      Math_sin (dLon / 2) *
      Math_sin (dLon / 2) in
  let c := 2 * Math_atan2 (Math_sqrt a) (Math_sqrt (1 - a)) in
  R * c.

Definition calculateBearing (lat1 lon1 lat2 lon2 : number) : number :=
  let dLon := ((lon2 - lon1) * Math_PI) / 180 in
  let lat1Rad := (lat1 * Math_PI) / 180 in
  let lat2Rad := (lat2 * Math_PI) / 180 in
  let y := Math_sin dLon * Math_cos lat2Rad in
  let x :=
    Math_cos lat1Rad * Math_sin lat2Rad -
    Math_sin lat1Rad * Math_cos lat2Rad * Math_cos dLon in
  let bearing := Math_atan2 y x in
  let bearing := (bearing * 180) / Math_PI in
  js_rem (bearing + 360) 360.

End Geodesy.

(** ** Nearest path node *)

Section Locator.

(** The distance function the scan minimises; the engine passes
    [calculateDistance]. *)
Variable distanceBetween : number -> number -> number -> number -> number.

Definition distanceTo (location : GPSLocation) (node : PathNode) : number :=
  distanceBetween (latitude location) (longitude location)
    (GeoPoint.latitude (coordinates node))
    (GeoPoint.longitude (coordinates node)).

(** The [for] loop of [findNearestNode]: [rest] holds the nodes from
    index [i] on, [nearestIndex] and [minDistance] are the loop's two
    variables. *)
Fixpoint scanNearest (location : GPSLocation) (rest : list PathNode)
    (i nearestIndex : nat) (minDistance : number) : nat :=
  match rest with
  | [] => nearestIndex
  | node :: rest' =>
      let distance := distanceTo location node in
      if ltb distance minDistance
      then scanNearest location rest' (S i) i distance
      else scanNearest location rest' (S i) nearestIndex minDistance
  end.

Definition findNearestNode (location : GPSLocation)
    (pathNodes : list PathNode) : option nat :=
  match pathNodes with
  | [] => None
  | first :: rest =>
      Some (scanNearest location rest 1 0 (distanceTo location first))
  end.

End Locator.

(** ** Movement instruction *)

Definition ARRIVAL_THRESHOLD : number := 15.

(** Optional chaining [o?.f]. *)
Definition optChain {A B : Type} (o : option A) (f : A -> option B) : option B :=
  match o with Some a => f a | None => None end.

(** The phrase chosen from the relative bearing alone, before any override. *)
Definition basePhrase (relativeBearing : number) : string :=
  if ltb relativeBearing (-45) then "Turn left"
  else if gtb relativeBearing 45 then "Turn right"
  else if ltb relativeBearing (-15) then "Slight left"
  else if gtb relativeBearing 15 then "Slight right"
  else "Continue straight".

Definition addCustomInstruction (nextNode : option PathNode)
    (instruction : string) : string :=
  match optChain nextNode instructionText with
  | Some text => if truthy text then text else instruction
  | None => instruction
  end.

Definition addLandmark (nextNode : option PathNode)
    (instruction : string) : string :=
  match optChain nextNode landmark with
  | Some l => instruction ++ " toward " ++ Landmark.name l
  | None => instruction
  end.

Definition addFloor (nextNode : option PathNode)
    (instruction : string) : string :=
  match nextNode with
  | Some node =>
      match floor node with
      | Some f =>
          if isIndoor node
          then instruction ++ " (Floor " ++ show_Z f ++ ")"
          else instruction
      | None => instruction
      end
  | None => instruction
  end.

Definition addDistance (distance : number) (instruction : string) : string :=
  if gtb distance 100
  then instruction ++ " in " ++ show_Z (Math_round (distance / 10) * 10) ++ "m"
  else if gtb distance 0
  then instruction ++ " in " ++ show_Z (Math_round distance) ++ "m"
  else instruction.

Definition generateMovementInstruction (relativeBearing distance : number)
    (nextNode : option PathNode) : string :=
  if ltb distance ARRIVAL_THRESHOLD then "You have reached the waypoint"
  else
    let instruction := basePhrase relativeBearing in
    let instruction := addCustomInstruction nextNode instruction in
    let instruction := addLandmark nextNode instruction in
    let instruction := addFloor nextNode instruction in
    addDistance distance instruction.

(** ** The hook's state *)

(** A property of an untyped object: missing ([undefined]), [null], or a
    value. *)
Inductive jsValue (A : Type) : Type :=
| Undefined
| Null
| Value (a : A).

Arguments Undefined {A}.
Arguments Null {A}.
Arguments Value {A} a.

(** The position object the platform hands to the success callback; the
    callback takes it as [any].  The heading is a number, [undefined], or
    [null] as the geolocation interface reports a heading it cannot
    determine. *)
Module Coords.
Record t : Type := mk {
  latitude : number;
  longitude : number;
  accuracy : number;
  heading : jsValue number
}.
End Coords.

Module Position.
Record t : Type := mk { coords : Coords.t; timestamp : number }.
End Position.

(** One cell per [useState], the [watchIdRef] reference, and the watches
    the geolocation service currently holds for this hook. *)
Record HookState : Type := mkHookState {
  currentLocation : option GPSLocation;
  nearestNodeIndex : option nat;
  distance : number;
  relativeBearing : number;
  userHeading : option number;
  movementInstruction : string;
  arrivednextNode : bool;
  arriveAtDestination : bool;
  watchIdRef : option Z;
  activeWatches : list Z
}.

Definition initialState : HookState :=
  mkHookState None None 0 0 None "Initializing navigation..." false false
    None [].

Definition setCurrentLocation (v : option GPSLocation) (st : HookState) :=
  mkHookState v (nearestNodeIndex st) (distance st) (relativeBearing st)
    (userHeading st) (movementInstruction st) (arrivednextNode st)
    (arriveAtDestination st) (watchIdRef st) (activeWatches st).

Definition setNearestNodeIndex (v : option nat) (st : HookState) :=
  mkHookState (currentLocation st) v (distance st) (relativeBearing st)
    (userHeading st) (movementInstruction st) (arrivednextNode st)
    (arriveAtDestination st) (watchIdRef st) (activeWatches st).

Definition setDistance (v : number) (st : HookState) :=
  mkHookState (currentLocation st) (nearestNodeIndex st) v (relativeBearing st)
    (userHeading st) (movementInstruction st) (arrivednextNode st)
    (arriveAtDestination st) (watchIdRef st) (activeWatches st).

Definition setRelativeBearing (v : number) (st : HookState) :=
  mkHookState (currentLocation st) (nearestNodeIndex st) (distance st) v
    (userHeading st) (movementInstruction st) (arrivednextNode st)
    (arriveAtDestination st) (watchIdRef st) (activeWatches st).

Definition setUserHeading (v : option number) (st : HookState) :=
  mkHookState (currentLocation st) (nearestNodeIndex st) (distance st)
    (relativeBearing st) v (movementInstruction st) (arrivednextNode st)
    (arriveAtDestination st) (watchIdRef st) (activeWatches st).

Definition setMovementInstruction (v : string) (st : HookState) :=
  mkHookState (currentLocation st) (nearestNodeIndex st) (distance st)
    (relativeBearing st) (userHeading st) v (arrivednextNode st)
    (arriveAtDestination st) (watchIdRef st) (activeWatches st).

Definition setArrivedNextNode (v : bool) (st : HookState) :=
  mkHookState (currentLocation st) (nearestNodeIndex st) (distance st)
    (relativeBearing st) (userHeading st) (movementInstruction st) v
    (arriveAtDestination st) (watchIdRef st) (activeWatches st).

Definition setArriveAtDestination (v : bool) (st : HookState) :=
  mkHookState (currentLocation st) (nearestNodeIndex st) (distance st)
    (relativeBearing st) (userHeading st) (movementInstruction st)
    (arrivednextNode st) v (watchIdRef st) (activeWatches st).

Definition setWatch (ref : option Z) (watches : list Z) (st : HookState) :=
  mkHookState (currentLocation st) (nearestNodeIndex st) (distance st)
    (relativeBearing st) (userHeading st) (movementInstruction st)
    (arrivednextNode st) (arriveAtDestination st) ref watches.

(** The object the hook returns on a render. *)
Module NavigationOutput.
Record t : Type := mk {
  currentLocation : option GPSLocation;
  nearestNodeIndex : option nat;
  nextNodeIndex : option nat;
  distance : number;
  relativeBearing : number;
  userHeading : option number;
  movementInstruction : string;
  arrivednextNode : bool;
  arriveAtDestination : bool
}.
End NavigationOutput.

(** [pathNodes.length - 1], which is [-1] on the empty list. *)
Definition lastIndex (pathNodes : list PathNode) : Z :=
  Z.of_nat (List.length pathNodes) - 1.

Definition render (pathNodes : list PathNode) (st : HookState)
    : NavigationOutput.t :=
  NavigationOutput.mk
    (currentLocation st)
    (nearestNodeIndex st)
    (match nearestNodeIndex st with
     | Some n => if (Z.of_nat n <? lastIndex pathNodes)%Z
                 then Some (n + 1)%nat
                 else Some n
     | None => None
     end)
    (distance st)
    (relativeBearing st)
    (userHeading st)
    (movementInstruction st)
    (arrivednextNode st)
    (arriveAtDestination st).

(** ** The callbacks *)

Section Engine.

Variables Math_sin Math_cos Math_sqrt : number -> number.
Variable Math_atan2 : number -> number -> number.
Variable Math_PI : number.

Let distanceOf := calculateDistance Math_sin Math_cos Math_sqrt Math_atan2 Math_PI.
Let bearingOf := calculateBearing Math_sin Math_cos Math_atan2 Math_PI.

(** The index of the node the engine steers to. *)
Definition nextIndexOf (nearest : nat) (pathNodes : list PathNode) : nat :=
  if (Z.of_nat nearest <? lastIndex pathNodes)%Z
  then (nearest + 1)%nat
  else nearest.

(** [updateNavigationState] is a [useCallback] over [pathNodes] and
    [userHeading]: both are the values of the render that created it.
    Reading [pathNodes[nextIndex]] past the end would throw after the
    nearest index has been stored; the last branch stands for that. *)
Definition updateNavigationState (pathNodes : list PathNode)
    (userHeading : option number) (location : GPSLocation)
    (st : HookState) : HookState :=
  if (List.length pathNodes =? 0)%nat
  then setMovementInstruction "No path nodes available" st
  else
    let nearest := findNearestNode distanceOf location pathNodes in
    let st := setNearestNodeIndex nearest st in
    match nearest with
    | None => st
    | Some nearest =>
        let nextIndex := nextIndexOf nearest pathNodes in
        match nth_error pathNodes nextIndex with
        | Some nextNode =>
            let distToNext :=
              distanceOf (latitude location) (longitude location)
                (GeoPoint.latitude (coordinates nextNode))
                (GeoPoint.longitude (coordinates nextNode)) in
            let st := setDistance distToNext st in
            let bearingToNext :=
              bearingOf (latitude location) (longitude location)
                (GeoPoint.latitude (coordinates nextNode))
                (GeoPoint.longitude (coordinates nextNode)) in
            let relBearing :=
              match userHeading with
              | Some heading =>
                  normalizeBearingDifference (bearingToNext - heading)
              | None => 0
              end in
            let st := setRelativeBearing relBearing st in
            let arrivedAtNext := ltb distToNext ARRIVAL_THRESHOLD in
            let st := setArrivedNextNode arrivedAtNext st in
            let arrivedAtDest :=
              (Z.of_nat nextIndex =? lastIndex pathNodes)%Z && arrivedAtNext in
            let st := setArriveAtDestination arrivedAtDest st in
            let instruction :=
              generateMovementInstruction relBearing distToNext
                (Some nextNode) in
            setMovementInstruction instruction st
        | None => st
        end
    end.

(** [handleLocationUpdate] calls the [updateNavigationState] of its own
    render; the heading it stores reaches the next render, not this call.
    The guard [heading !== undefined && heading >= 0] lets [null] through,
    since [null >= 0] compares 0 with 0: [null] is then stored. *)
Definition handleLocationUpdate (pathNodes : list PathNode)
    (userHeading : option number) (position : Position.t)
    (st : HookState) : HookState :=
  let location := {|
    latitude := Coords.latitude (Position.coords position);
    longitude := Coords.longitude (Position.coords position);
    accuracy := Coords.accuracy (Position.coords position);
    timestamp := Position.timestamp position |} in
  let st := setCurrentLocation (Some location) st in
  let st :=
    match Coords.heading (Position.coords position) with
    | Undefined => st
    | Null => setUserHeading None st
    | Value heading =>
        if geb heading 0 then setUserHeading (Some heading) st else st
    end in
  updateNavigationState pathNodes userHeading location st.

Definition handleLocationError (message : string) (st : HookState)
    : HookState :=
  setMovementInstruction ("Location error: " ++ message) st.

(** The effect that starts and stops tracking.  [newId] is the handle
    [watchPosition] returns; the cleanup the effect returns is
    [clearWatch] as well. *)
Definition clearWatch (st : HookState) : HookState :=
  match watchIdRef st with
  | Some id => setWatch None (filter (fun w => negb (w =? id)%Z) (activeWatches st)) st
  | None => st
  end.

Definition trackingEffect (enabled : bool) (pathNodes : list PathNode)
    (newId : Z) (st : HookState) : HookState :=
  if negb enabled || (List.length pathNodes =? 0)%nat
  then clearWatch st
  else setWatch (Some newId) (newId :: activeWatches st) st.

(** A fix delivered to the subscription made after the render of [st]:
    the callbacks hold that render's [pathNodes] and [userHeading]. *)
Definition onFix (pathNodes : list PathNode) (position : Position.t)
    (st : HookState) : HookState :=
  handleLocationUpdate pathNodes (userHeading st) position st.

Definition onError (message : string) (st : HookState) : HookState :=
  handleLocationError message st.

End Engine.

(** ** A rational instance of [Math]

    First-order approximations around zero.  The theorems on the engine
    hold for every instance of [Math]; this one serves to run the engine
    on concrete fixes a few hundred metres apart. *)

Module SmallAngle.

Definition PI : number := 355 # 113.

Definition sin (x : number) : number := x.

Definition cos (x : number) : number := 1 - x * x / 2.

(** Square root of [n/d] as [sqrt (n*d) / d] on integers. *)
Definition sqrt (x : number) : number :=
  Z.sqrt (Qnum x * Zpos (Qden x)) # Qden x.

Definition atan2 (y x : number) : number :=
  if gtb x 0 then y / x
  else if ltb x 0 then (if ltb y 0 then y / x - PI else y / x + PI)
  else if gtb y 0 then PI / 2
  else if ltb y 0 then - (PI / 2)
  else 0.

Definition onFix := onFix sin cos sqrt atan2 PI.
Definition calculateDistance := calculateDistance sin cos sqrt atan2 PI.
Definition calculateBearing := calculateBearing sin cos atan2 PI.

End SmallAngle.

(** ** Sample data *)

Definition plainNode (lat lon : number) (ord : Z) : PathNode :=
  {| coordinates := GeoPoint.mk lat lon;
     order := ord;
     instructionText := None;
     landmark := None;
     floor := None;
     isIndoor := false |}.

(** A fix with a heading, or without the property when [heading] is
    [None]. *)
Definition fixAt (lat lon : number) (heading : option number) : Position.t :=
  Position.mk
    (Coords.mk lat lon 5
       (match heading with Some h => Value h | None => Undefined end)) 0.

(** A fix whose heading is [null]. *)
Definition fixNullHeading (lat lon : number) : Position.t :=
  Position.mk (Coords.mk lat lon 5 Null) 0.

(** Two nodes about 111 m apart along the equator, as in the eastward walk
    of the specification's scenario. *)
Definition eastwardPath : list PathNode :=
  [plainNode 0 0 1; plainNode 0 (1 # 1000) 2].

(** Two nodes about 111 m apart along a meridian. *)
Definition northwardPath : list PathNode :=
  [plainNode 0 0 1; plainNode (1 # 1000) 0 2].

(** ** The composition policy, in the specification's words

    The instruction as the specification composes it: a head, then one
    suffix each for the landmark, the floor and the distance.  [replaces]
    says which override texts take the place of the base phrase. *)

(** [d] rounded to the nearest multiple of [step], halves going up. *)
Definition roundTo (step : Z) (d : number) : Z :=
  (step * Qfloor (d / inject_Z step + (1 # 2)))%Z.

Definition landmarkSuffix (target : PathNode) : string :=
  match landmark target with
  | Some l => " toward " ++ Landmark.name l
  | None => EmptyString
  end.

Definition floorSuffix (target : PathNode) : string :=
  match floor target with
  | Some f => if isIndoor target then " (Floor " ++ show_Z f ++ ")" else EmptyString
  | None => EmptyString
  end.

Definition distanceSuffix (d : number) : string :=
  if gtb d 100 then " in " ++ show_Z (roundTo 10 d) ++ "m"
  else if gtb d 0 then " in " ++ show_Z (roundTo 1 d) ++ "m"
  else EmptyString.

Definition policyInstruction (replaces : string -> bool)
    (relativeBearing d : number) (target : PathNode) : string :=
  if ltb d 15 then "You have reached the waypoint"
  else
    let head :=
      match instructionText target with
      | Some text => if replaces text then text else basePhrase relativeBearing
      | None => basePhrase relativeBearing
      end in
    head ++ landmarkSuffix target ++ floorSuffix target ++ distanceSuffix d.

(** Every present override replaces the base phrase. *)
Definition anyOverride (text : string) : bool := true.

(** A node equal to [node] but for its override. *)
Definition withInstructionText (text : option string) (node : PathNode)
    : PathNode :=
  {| coordinates := coordinates node;
     order := order node;
     instructionText := text;
     landmark := landmark node;
     floor := floor node;
     isIndoor := isIndoor node |}.

(** A sample indoor node with a landmark and an empty override. *)
Definition lobbyNode : PathNode :=
  {| coordinates := GeoPoint.mk 0 0;
     order := 3;
     instructionText := Some EmptyString;
     landmark := Some (Landmark.mk "Fountain" "On your left");
     floor := Some 1%Z;
     isIndoor := true |}.

(** The location record [handleLocationUpdate] builds from a position. *)
Definition locationOf (position : Position.t) : GPSLocation :=
  {| latitude := Coords.latitude (Position.coords position);
     longitude := Coords.longitude (Position.coords position);
     accuracy := Coords.accuracy (Position.coords position);
     timestamp := Position.timestamp position |}.

(** ** Further parts of the hook and of its caller *)

(** The angle [calculateBearing] gets from [Math.atan2], in radians, before
    it is turned into degrees. *)
Definition initialBearing (Math_sin Math_cos : number -> number)
    (Math_atan2 : number -> number -> number) (Math_PI : number)
    (lat1 lon1 lat2 lon2 : number) : number :=
  let dLon := ((lon2 - lon1) * Math_PI) / 180 in
  let lat1Rad := (lat1 * Math_PI) / 180 in
  let lat2Rad := (lat2 * Math_PI) / 180 in
  let y := Math_sin dLon * Math_cos lat2Rad in
  let x :=
    Math_cos lat1Rad * Math_sin lat2Rad -
    Math_sin lat1Rad * Math_cos lat2Rad * Math_cos dLon in
  Math_atan2 y x.

(** What [handleLocationUpdate] passes to [setUserHeading], when it calls
    it: a non-negative heading, or [null] for a [null] heading. *)
Definition acceptedHeading (position : Position.t) : option (option number) :=
  match Coords.heading (Position.coords position) with
  | Undefined => None
  | Null => Some None
  | Value heading => if geb heading 0 then Some (Some heading) else None
  end.

(** The heading cell after a fix. *)
Definition headingAfter (position : Position.t) (known : option number)
    : option number :=
  match acceptedHeading position with
  | Some written => written
  | None => known
  end.

(** Fixes delivered one after the other, each to the callbacks of the
    render that follows the fix before it. *)
Definition runFixes (Math_sin Math_cos Math_sqrt : number -> number)
    (Math_atan2 : number -> number -> number) (Math_PI : number)
    (pathNodes : list PathNode) (fixes : list Position.t)
    (st : HookState) : HookState :=
  fold_left
    (fun st position =>
       onFix Math_sin Math_cos Math_sqrt Math_atan2 Math_PI pathNodes position st)
    fixes st.



(** The last character of a string. *)
Fixpoint lastChar (s : string) : option ascii :=
  match s with
  | EmptyString => None
  | String c EmptyString => Some c
  | String _ rest => lastChar rest
  end.

(** *** The navigation screen *)

(** [RouteCoordinate] of [useRoutePath]. *)
Module RouteCoordinate.
Record t : Type := mk {
  latitude : number;
  longitude : number;
  order : Z;
  floor : option Z;
  isIndoor : bool
}.
End RouteCoordinate.

(** [transformToCoordinates] of [useRoutePath]. *)
Definition transformToCoordinates (nodes : list PathNode)
    : list RouteCoordinate.t :=
  map (fun node =>
         RouteCoordinate.mk
           (GeoPoint.latitude (coordinates node))
           (GeoPoint.longitude (coordinates node))
           (order node) (floor node) (isIndoor node))
      nodes.

(** The path nodes the screen builds from the coordinates and hands to the
    engine: the fields it does not set are [undefined]. *)
Definition screenPathNodes (pathCoordinates : list RouteCoordinate.t)
    : list PathNode :=
  map (fun coord =>
         {| coordinates :=
              GeoPoint.mk (RouteCoordinate.latitude coord)
                (RouteCoordinate.longitude coord);
            order := RouteCoordinate.order coord;
            instructionText := None;
            landmark := None;
            floor := RouteCoordinate.floor coord;
            isIndoor := RouteCoordinate.isIndoor coord |})
      pathCoordinates.

(** The text under the arrow of [ArrowOverlay]. *)
Definition bearingIndicator (relativeBearing : number) : string :=
  if gtb (Qabs relativeBearing) 45
  then (if ltb relativeBearing 0 then "⬅ LEFT" else "RIGHT ➡")
  else if ltb relativeBearing (-15) then "↖ L"
  else if gtb relativeBearing 15 then "R ↗"
  else "↑ STRAIGHT".

(** The condition of the screen's final-arrival effect. *)
Definition FINAL_ARRIVAL_THRESHOLD : number := 5.

Definition finalArrival (out : NavigationOutput.t) (pathLength : nat)
    (hasTriggeredFinalArrival : bool) : bool :=
  match NavigationOutput.nearestNodeIndex out with
  | Some n => (Z.of_nat n =? Z.of_nat pathLength - 1)%Z
  | None => false
  end
  && Qle_bool (NavigationOutput.distance out) FINAL_ARRIVAL_THRESHOLD
  && negb hasTriggeredFinalArrival.

(** * Facts *)

(** ** Comparisons *)

Lemma ltb_lt (x y : number) : ltb x y = true <-> x < y.
Proof.
  unfold ltb. rewrite Qlt_alt. destruct (x ?= y); split; congruence.
Qed.

Lemma ltb_ge (x y : number) : ltb x y = false <-> y <= x.
Proof.
  split; intro H.
  - apply Qnot_lt_le. intro L. apply ltb_lt in L. congruence.
  - destruct (ltb x y) eqn:E; [|reflexivity].
    apply ltb_lt in E. exfalso. apply (Qlt_not_le _ _ E H).
Qed.

Lemma gtb_gt (x y : number) : gtb x y = true <-> y < x.
Proof. apply ltb_lt. Qed.

Lemma gtb_le (x y : number) : gtb x y = false <-> x <= y.
Proof. apply ltb_ge. Qed.

Lemma geb_ge (x y : number) : geb x y = true <-> y <= x.
Proof. apply Qle_bool_iff. Qed.

(** Turns every boolean comparison in the context and the goal into the
    order relation it decides, ready for [lra]. *)
Ltac order_facts :=
  repeat match goal with
  | H : ltb _ _ = true |- _ => apply ltb_lt in H
  | H : ltb _ _ = false |- _ => apply ltb_ge in H
  | H : gtb _ _ = true |- _ => apply gtb_gt in H
  | H : gtb _ _ = false |- _ => apply gtb_le in H
  | H : geb _ _ = true |- _ => apply geb_ge in H
  end.

(** ** Bearing normalisation *)

Lemma normalizeBearingDifference_cases (x : number) :
  (180 < x /\ normalizeBearingDifference x = x - 360) \/
  (x < -180 /\ normalizeBearingDifference x = x + 360) \/
  (-180 <= x <= 180 /\ normalizeBearingDifference x = x).
Proof.
  unfold normalizeBearingDifference.
  destruct (gtb x 180) eqn:G; order_facts; [left; split; [lra | reflexivity]|].
  destruct (ltb x (-180)) eqn:L; order_facts.
  - right; left. split; [lra | reflexivity].
  - right; right. split; [lra | reflexivity].
Qed.

Lemma normalizeBearingDifference_fixed (x : number) :
  -180 <= x <= 180 -> normalizeBearingDifference x = x.
Proof.
  intros Hx.
  destruct (normalizeBearingDifference_cases x) as [[H _]|[[H _]|[_ E]]];
    [lra | lra | exact E].
Qed.

(** C9, as stated, fails: two full turns are corrected by one only. *)
Lemma normalizeBearingDifference_out_of_range :
  180 < normalizeBearingDifference 720.
Proof. reflexivity. Qed.

(** C9 (amended).  [normalizeBearingDifference x] lies in [-180, 180]
    exactly when [x] lies in [-540, 540], which covers every difference of
    two bearings in [0, 360]; whenever the result lies in [-180, 180] a
    second application changes nothing; and the result is always [x],
    [x - 360] or [x + 360]: at most one correction is made. *)
Theorem normalizeBearingDifference_range (x : number) :
  (-540 <= x <= 540 <-> -180 <= normalizeBearingDifference x <= 180) /\
  (-180 <= normalizeBearingDifference x <= 180 ->
   normalizeBearingDifference (normalizeBearingDifference x)
   = normalizeBearingDifference x) /\
  (normalizeBearingDifference x = x \/
   normalizeBearingDifference x = x - 360 \/
   normalizeBearingDifference x = x + 360).
Proof.
  split; [|split].
  - destruct (normalizeBearingDifference_cases x) as [[H E]|[[H E]|[H E]]];
      rewrite E; split; intros; lra.
  - apply normalizeBearingDifference_fixed.
  - destruct (normalizeBearingDifference_cases x) as [[_ E]|[[_ E]|[_ E]]];
      rewrite E; auto.
Qed.

Lemma normalizeBearingDifference_range_witness :
  -180 <= normalizeBearingDifference 270 <= 180 /\
  normalizeBearingDifference (normalizeBearingDifference 270)
  = normalizeBearingDifference 270.
Proof.
  pose proof (normalizeBearingDifference_range 270) as [R [I _]].
  assert (B : -540 <= 270 <= 540) by (split; discriminate).
  split; [exact (proj1 R B) | exact (I (proj1 R B))].
Defined.

(** ** Instruction generator *)

Local Open Scope string_scope.

Lemma append_assoc (a b c : string) : (a ++ b) ++ c = a ++ b ++ c.
Proof. induction a as [|ch a IH]; simpl; [reflexivity | now rewrite IH]. Qed.

Lemma append_empty_r (a : string) : a ++ EmptyString = a.
Proof. induction a as [|ch a IH]; simpl; [reflexivity | now rewrite IH]. Qed.

Lemma roundTo_10 (d : number) : roundTo 10 d = (Math_round (d / 10)%Q * 10)%Z.
Proof. unfold roundTo, Math_round. apply Z.mul_comm. Qed.

Lemma roundTo_1 (d : number) : roundTo 1 d = Math_round d.
Proof.
  unfold roundTo, Math_round.
  assert (E : (d / inject_Z 1 + (1 # 2) == d + (1 # 2))%Q)
    by (unfold inject_Z; field).
  rewrite E. apply Z.mul_1_l.
Qed.

(** A rounded distance is a multiple of its step no further than half a
    step from the distance. *)
Lemma roundTo_near (d : number) :
  (d - 5 < inject_Z (roundTo 10 d) <= d + 5)%Q /\
  (exists k : Z, roundTo 10 d = (10 * k)%Z) /\
  (d - (1 # 2) < inject_Z (roundTo 1 d) <= d + (1 # 2))%Q.
Proof.
  split; [|split].
  - unfold roundTo. rewrite inject_Z_mult.
    pose proof (Qfloor_le (d / inject_Z 10 + (1 # 2))) as Lo.
    pose proof (Qlt_floor (d / inject_Z 10 + (1 # 2))) as Hi.
    rewrite inject_Z_plus in Hi.
    change (inject_Z 10) with (10 # 1)%Q in *.
    change (inject_Z 1) with 1%Q in Hi.
    set (f := inject_Z (Qfloor (d / (10 # 1) + (1 # 2)))) in *.
    assert (E : (d / (10 # 1) == d * (1 # 10))%Q) by field.
    rewrite E in Lo, Hi.
    split; lra.
  - eexists. reflexivity.
  - rewrite roundTo_1. unfold Math_round.
    pose proof (Qfloor_le (d + (1 # 2))) as Lo.
    pose proof (Qlt_floor (d + (1 # 2))) as Hi.
    rewrite inject_Z_plus in Hi. change (inject_Z 1) with 1%Q in Hi.
    split; lra.
Qed.

Lemma addDistance_suffix (d : number) (s : string) :
  addDistance d s = s ++ distanceSuffix d.
Proof.
  unfold addDistance, distanceSuffix.
  rewrite roundTo_10, roundTo_1.
  destruct (gtb d 100); [reflexivity|].
  destruct (gtb d 0); [reflexivity | now rewrite append_empty_r].
Qed.

Lemma addFloor_suffix (t : PathNode) (s : string) :
  addFloor (Some t) s = s ++ floorSuffix t.
Proof.
  unfold addFloor, floorSuffix.
  destruct (floor t); [destruct (isIndoor t)|];
    first [reflexivity | now rewrite append_empty_r].
Qed.

Lemma addLandmark_suffix (t : PathNode) (s : string) :
  addLandmark (Some t) s = s ++ landmarkSuffix t.
Proof.
  unfold addLandmark, landmarkSuffix, optChain.
  destruct (landmark t); [reflexivity | now rewrite append_empty_r].
Qed.

(** Past the arrival threshold the generator runs its four steps in order,
    starting from the base phrase. *)
Lemma generateMovementInstruction_steps (rb d : number)
    (nextNode : option PathNode) :
  (15 <= d)%Q ->
  generateMovementInstruction rb d nextNode
  = addDistance d (addFloor nextNode (addLandmark nextNode
      (addCustomInstruction nextNode (basePhrase rb)))).
Proof.
  intros Hd. unfold generateMovementInstruction, ARRIVAL_THRESHOLD.
  destruct (ltb d 15) eqn:L; [order_facts; lra | reflexivity].
Qed.

Lemma generateMovementInstruction_arrival (rb d : number)
    (nextNode : option PathNode) :
  (d < 15)%Q ->
  generateMovementInstruction rb d nextNode = "You have reached the waypoint".
Proof.
  intros Hd. unfold generateMovementInstruction, ARRIVAL_THRESHOLD.
  destruct (ltb d 15) eqn:L; [reflexivity | order_facts; lra].
Qed.

(** C4.  Past the arrival threshold the generator starts from
    [basePhrase], and that phrase is "Turn left" exactly below -45,
    "Turn right" exactly above 45, "Slight left" exactly on [-45, -15),
    "Slight right" exactly on (15, 45] and "Continue straight" exactly on
    [-15, 15]; so 45 gives "Slight right" and -45 gives "Slight left". *)
Theorem basePhrase_thresholds (rb d : number) (nextNode : option PathNode) :
  (15 <= d)%Q ->
  generateMovementInstruction rb d nextNode
  = addDistance d (addFloor nextNode (addLandmark nextNode
      (addCustomInstruction nextNode (basePhrase rb)))) /\
  (basePhrase rb = "Turn left" <-> (rb < -45)%Q) /\
  (basePhrase rb = "Turn right" <-> (45 < rb)%Q) /\
  (basePhrase rb = "Slight left" <-> (-45 <= rb < -15)%Q) /\
  (basePhrase rb = "Slight right" <-> (15 < rb <= 45)%Q) /\
  (basePhrase rb = "Continue straight" <-> (-15 <= rb <= 15)%Q) /\
  basePhrase 45 = "Slight right" /\
  basePhrase (-45) = "Slight left".
Proof.
  intros Hd. split; [now apply generateMovementInstruction_steps|].
  unfold basePhrase.
  destruct (ltb rb (-45)) eqn:A; [|destruct (gtb rb 45) eqn:B;
    [|destruct (ltb rb (-15)) eqn:C; [|destruct (gtb rb 15) eqn:D]]];
    order_facts;
    repeat split; intros; try discriminate; try reflexivity; lra.
Qed.

Lemma basePhrase_thresholds_witness :
  generateMovementInstruction 45 50 None = "Slight right in 50m" /\
  basePhrase 45 = "Slight right".
Proof.
  assert (Hd : (15 <= 50)%Q) by discriminate.
  pose proof (basePhrase_thresholds 45 50 None Hd) as [E [_ [_ [_ [_ [_ [R _]]]]]]].
  split; [rewrite E; reflexivity | exact R].
Defined.

(** The generator and the policy with non-empty overrides agree. *)
Lemma generator_is_policy (rb d : number) (target : PathNode) :
  generateMovementInstruction rb d (Some target)
  = policyInstruction truthy rb d target.
Proof.
  unfold policyInstruction.
  destruct (ltb d 15) eqn:L; order_facts.
  - now apply generateMovementInstruction_arrival.
  - rewrite generateMovementInstruction_steps by exact L.
    rewrite addDistance_suffix, addFloor_suffix, addLandmark_suffix.
    rewrite !append_assoc. reflexivity.
Qed.

(** C5, as stated, fails on a present but empty override: the policy that
    lets every present override replace the base phrase drops the phrase,
    the generator keeps it. *)
Lemma empty_override_keeps_base_phrase :
  instructionText lobbyNode = Some EmptyString /\
  policyInstruction anyOverride 0 50 lobbyNode
  = " toward Fountain (Floor 1) in 50m" /\
  generateMovementInstruction 0 50 (Some lobbyNode)
  = "Continue straight toward Fountain (Floor 1) in 50m".
Proof. repeat split. Qed.

(** C5 (amended).  The generator's output equals the composition policy in
    which a present, non-empty override replaces the base phrase: below
    15 m the fixed arrival message; otherwise the head (override or base
    phrase), then the landmark, floor and distance suffixes in this order.
    The distance in the suffix is a multiple of 10 within 5 m of the
    distance above 100 m, and an integer within half a metre of it up to
    100 m. *)
Theorem generateMovementInstruction_policy (rb d : number) (target : PathNode) :
  generateMovementInstruction rb d (Some target)
  = policyInstruction truthy rb d target /\
  ((d < 15)%Q ->
   generateMovementInstruction rb d (Some target)
   = "You have reached the waypoint") /\
  (forall text, instructionText target = Some text -> truthy text = true ->
   (15 <= d)%Q ->
   generateMovementInstruction rb d (Some target)
   = text ++ landmarkSuffix target ++ floorSuffix target ++ distanceSuffix d) /\
  (instructionText target = None -> (15 <= d)%Q ->
   generateMovementInstruction rb d (Some target)
   = basePhrase rb ++ landmarkSuffix target ++ floorSuffix target
     ++ distanceSuffix d) /\
  ((100 < d)%Q ->
   distanceSuffix d = " in " ++ show_Z (roundTo 10 d) ++ "m" /\
   (d - 5 < inject_Z (roundTo 10 d) <= d + 5)%Q /\
   exists k : Z, roundTo 10 d = (10 * k)%Z) /\
  ((0 < d <= 100)%Q ->
   distanceSuffix d = " in " ++ show_Z (roundTo 1 d) ++ "m" /\
   (d - (1 # 2) < inject_Z (roundTo 1 d) <= d + (1 # 2))%Q) /\
  ((d == 0)%Q -> distanceSuffix d = EmptyString).
Proof.
  pose proof (generator_is_policy rb d target) as P.
  pose proof (roundTo_near d) as [N10 [M10 N1]].
  repeat split.
  - exact P.
  - intros Hd. now apply generateMovementInstruction_arrival.
  - intros text Ht Tr Hd. rewrite P. unfold policyInstruction.
    destruct (ltb d 15) eqn:L; [order_facts; lra|].
    rewrite Ht, Tr. reflexivity.
  - intros Ht Hd. rewrite P. unfold policyInstruction.
    destruct (ltb d 15) eqn:L; [order_facts; lra|].
    rewrite Ht. reflexivity.
  - unfold distanceSuffix.
    destruct (gtb d 100) eqn:G; [reflexivity | order_facts; lra].
  - apply N10.
  - apply N10.
  - exact M10.
  - unfold distanceSuffix.
    destruct (gtb d 100) eqn:G; [order_facts; lra|].
    destruct (gtb d 0) eqn:G0; [reflexivity | order_facts; lra].
  - apply N1.
  - apply N1.
  - unfold distanceSuffix.
    destruct (gtb d 100) eqn:G; [order_facts; lra|].
    destruct (gtb d 0) eqn:G0; [order_facts; lra | reflexivity].
Qed.

Lemma generateMovementInstruction_policy_witness :
  generateMovementInstruction 0 120
    (Some (withInstructionText (Some "Pass the fountain") lobbyNode))
  = "Pass the fountain toward Fountain (Floor 1) in 120m".
Proof.
  pose proof (generateMovementInstruction_policy 0 120
                (withInstructionText (Some "Pass the fountain") lobbyNode))
    as [_ [_ [R _]]].
  assert (Hd : (15 <= 120)%Q) by discriminate.
  rewrite (R "Pass the fountain" eq_refl eq_refl Hd). reflexivity.
Defined.

(** C10.  A node whose override is present but empty is treated as a node
    without override: the base phrase is kept and the landmark, floor and
    distance suffixes are appended to it. *)
Theorem empty_override_ignored (rb d : number) (node : PathNode) :
  instructionText node = Some EmptyString ->
  generateMovementInstruction rb d (Some node)
  = generateMovementInstruction rb d (Some (withInstructionText None node)) /\
  ((15 <= d)%Q ->
   generateMovementInstruction rb d (Some node)
   = basePhrase rb ++ landmarkSuffix node ++ floorSuffix node
     ++ distanceSuffix d).
Proof.
  intros He.
  pose proof (generator_is_policy rb d node) as P.
  pose proof (generator_is_policy rb d (withInstructionText None node)) as Q.
  split.
  - rewrite P, Q. unfold policyInstruction. simpl. rewrite He. reflexivity.
  - intros Hd. rewrite P. unfold policyInstruction.
    destruct (ltb d 15) eqn:L; [order_facts; lra|].
    rewrite He. reflexivity.
Qed.

Lemma empty_override_ignored_witness :
  generateMovementInstruction (-30) 50 (Some lobbyNode)
  = "Slight left toward Fountain (Floor 1) in 50m".
Proof.
  assert (Hd : (15 <= 50)%Q) by discriminate.
  rewrite (proj2 (empty_override_ignored (-30) 50 lobbyNode eq_refl) Hd).
  reflexivity.
Defined.

(** ** Nearest path node *)

Section LocatorFacts.

Variable distanceBetween : number -> number -> number -> number -> number.
Variable location : GPSLocation.

Let dist := distanceTo distanceBetween location.

(** What a scan started with candidate [nearestIndex] at distance
    [minDistance] returns: the candidate when no later node is strictly
    nearer, and otherwise the first node of least distance. *)
Lemma scanNearest_spec (rest : list PathNode) :
  forall (i nearestIndex : nat) (minDistance : number),
  let r := scanNearest distanceBetween location rest i nearestIndex minDistance in
  (r = nearestIndex /\
   forall j nj, nth_error rest j = Some nj -> (minDistance <= dist nj)%Q) \/
  (exists k nk,
     r = (i + k)%nat /\ nth_error rest k = Some nk /\
     (dist nk < minDistance)%Q /\
     (forall j nj, nth_error rest j = Some nj -> (dist nk <= dist nj)%Q) /\
     (forall j nj, nth_error rest j = Some nj -> (dist nj == dist nk)%Q ->
                   (k <= j)%nat)).
Proof.
  induction rest as [|node rest' IH]; intros i nearestIndex minDistance; simpl.
  - left. split; [reflexivity|]. intros [|j] nj H; discriminate.
  - fold (dist node). destruct (ltb (dist node) minDistance) eqn:L; order_facts.
    + destruct (IH (S i) i (dist node)) as [[E A]|[k [nk [E [N [Lt [A T]]]]]]].
      * right. exists 0%nat, node. rewrite E.
        repeat split; [lia | exact L | |].
        -- intros [|j] nj H; simpl in H.
           ++ inversion H; subst. lra.
           ++ exact (A j nj H).
        -- intros; lia.
      * right. exists (S k), nk. rewrite E.
        repeat split; [lia | exact N | lra | |].
        -- intros [|j] nj H; simpl in H.
           ++ inversion H; subst. lra.
           ++ exact (A j nj H).
        -- intros [|j] nj H Eq; simpl in H.
           ++ inversion H; subst. lra.
           ++ pose proof (T j nj H Eq). lia.
    + destruct (IH (S i) nearestIndex minDistance)
        as [[E A]|[k [nk [E [N [Lt [A T]]]]]]].
      * left. split; [exact E|].
        intros [|j] nj H; simpl in H.
        -- inversion H; subst. exact L.
        -- exact (A j nj H).
      * right. exists (S k), nk. rewrite E.
        repeat split; [lia | exact N | exact Lt | |].
        -- intros [|j] nj H; simpl in H.
           ++ inversion H; subst. lra.
           ++ exact (A j nj H).
        -- intros [|j] nj H Eq; simpl in H.
           ++ inversion H; subst. lra.
           ++ pose proof (T j nj H Eq). lia.
Qed.

Lemma findNearestNode_None (pathNodes : list PathNode) :
  findNearestNode distanceBetween location pathNodes = None <-> pathNodes = [].
Proof.
  destruct pathNodes; simpl; split; intros H; congruence.
Qed.

(** On a non-empty list the scan returns the first node of least
    distance. *)
Lemma findNearestNode_Some (pathNodes : list PathNode) :
  pathNodes <> [] ->
  exists i node,
    findNearestNode distanceBetween location pathNodes = Some i /\
    nth_error pathNodes i = Some node /\
    (i < List.length pathNodes)%nat /\
    (forall j nj, nth_error pathNodes j = Some nj -> (dist node <= dist nj)%Q) /\
    (forall j nj, nth_error pathNodes j = Some nj ->
                  (dist nj == dist node)%Q -> (i <= j)%nat).
Proof.
  destruct pathNodes as [|first rest]; [congruence|]. intros _. simpl.
  destruct (scanNearest_spec rest 1 0 (distanceTo distanceBetween location first))
    as [[E A]|[k [nk [E [N [Lt [A T]]]]]]]; fold (dist first) in *.
  - exists 0%nat, first. rewrite E.
    repeat split; [lia | |].
    + intros [|j] nj H; simpl in H.
      * inversion H; subst. lra.
      * exact (A j nj H).
    + intros; lia.
  - exists (S k), nk. rewrite E.
    repeat split; [exact N | | |].
    + apply -> Nat.succ_lt_mono. apply nth_error_Some. congruence.
    + intros [|j] nj H; simpl in H.
      * inversion H; subst. lra.
      * exact (A j nj H).
    + intros [|j] nj H Eq; simpl in H.
      * inversion H; subst. lra.
      * pose proof (T j nj H Eq). lia.
Qed.

(** C6.  [findNearestNode] returns none exactly on the empty list; on a
    non-empty list it returns a valid index whose node is at least
    distance, and the lowest such index; on a one-node list it returns 0
    wherever the location is. *)
Theorem findNearestNode_correct (pathNodes : list PathNode) :
  (findNearestNode distanceBetween location pathNodes = None
   <-> pathNodes = []) /\
  (pathNodes <> [] ->
   exists i node,
     findNearestNode distanceBetween location pathNodes = Some i /\
     nth_error pathNodes i = Some node /\
     (i < List.length pathNodes)%nat /\
     (forall j nj, nth_error pathNodes j = Some nj ->
        (distanceTo distanceBetween location node
         <= distanceTo distanceBetween location nj)%Q) /\
     (forall j nj, nth_error pathNodes j = Some nj ->
        (distanceTo distanceBetween location nj
         == distanceTo distanceBetween location node)%Q -> (i <= j)%nat)) /\
  (forall only, pathNodes = [only] ->
   findNearestNode distanceBetween location pathNodes = Some 0%nat).
Proof.
  split; [apply findNearestNode_None|].
  split; [apply findNearestNode_Some|].
  intros only ->. reflexivity.
Qed.

End LocatorFacts.

(** The scan on three nodes at stand-in distances 3, 1 and 1 from the
    location returns a valid index, and it is the first of the two
    nearest. *)
Lemma findNearestNode_correct_witness :
  exists i,
    findNearestNode (fun _ _ lat _ => lat) (Build_GPSLocation 0 0 5 0)
      [plainNode 3 0 1; plainNode 1 0 2; plainNode 1 1 3] = Some i /\
    (i < 3)%nat /\ (i <= 1)%nat.
Proof.
  pose proof (findNearestNode_correct (fun _ _ lat _ => lat)
                (Build_GPSLocation 0 0 5 0)
                [plainNode 3 0 1; plainNode 1 0 2; plainNode 1 1 3])
    as [_ [S _]].
  destruct S as [i [node [E [N [L [_ T]]]]]]; [discriminate|].
  exists i. split; [exact E|]. split; [exact L|].
  apply (T 1%nat (plainNode 1 0 2) eq_refl).
  vm_compute in E. injection E as <-.
  simpl in N. injection N as <-. reflexivity.
Defined.

(** ** The engine *)

Lemma nextIndexOf_clamped (nearest : nat) (pathNodes : list PathNode) :
  (nearest < List.length pathNodes)%nat ->
  (if (Z.of_nat nearest <? lastIndex pathNodes)%Z
   then (nearest + 1)%nat else nearest)
  = Nat.min (nearest + 1) (List.length pathNodes - 1).
Proof.
  intros H. unfold lastIndex.
  destruct (Z.ltb_spec (Z.of_nat nearest) (Z.of_nat (List.length pathNodes) - 1));
    lia.
Qed.

Section EngineFacts.

Variables Math_sin Math_cos Math_sqrt : number -> number.
Variable Math_atan2 : number -> number -> number.
Variable Math_PI : number.

Let distanceOf := calculateDistance Math_sin Math_cos Math_sqrt Math_atan2 Math_PI.
Let bearingOf := calculateBearing Math_sin Math_cos Math_atan2 Math_PI.
Let update := updateNavigationState Math_sin Math_cos Math_sqrt Math_atan2 Math_PI.
Let fix_ := onFix Math_sin Math_cos Math_sqrt Math_atan2 Math_PI.

(** The relative bearing an update computes towards [nextNode] with the
    heading its callback holds. *)
Let relativeTo (heading : option number) (location : GPSLocation)
    (nextNode : PathNode) : number :=
  match heading with
  | Some h =>
      normalizeBearingDifference
        (bearingOf (latitude location) (longitude location)
           (GeoPoint.latitude (coordinates nextNode))
           (GeoPoint.longitude (coordinates nextNode)) - h)
  | None => 0%Q
  end.

(** An update on a non-empty list runs to its end, and writes every cell
    but the location, the heading and the watch. *)
Lemma update_nonempty (pathNodes : list PathNode) (heading : option number)
    (location : GPSLocation) (st : HookState) :
  pathNodes <> [] ->
  exists nearest nextNode,
    findNearestNode distanceOf location pathNodes = Some nearest /\
    (nearest < List.length pathNodes)%nat /\
    nth_error pathNodes (nextIndexOf nearest pathNodes) = Some nextNode /\
    update pathNodes heading location st
    = let d := distanceTo distanceOf location nextNode in
      let rel := relativeTo heading location nextNode in
      let arrived := ltb d 15 in
      mkHookState (currentLocation st) (Some nearest) d rel (userHeading st)
        (generateMovementInstruction rel d (Some nextNode)) arrived
        ((Z.of_nat (nextIndexOf nearest pathNodes) =? lastIndex pathNodes)%Z
         && arrived)
        (watchIdRef st) (activeWatches st).
Proof.
  intros Hne.
  destruct (findNearestNode_Some distanceOf location pathNodes Hne)
    as [nearest [node [E [_ [L _]]]]].
  assert (Hnext : (nextIndexOf nearest pathNodes < List.length pathNodes)%nat).
  { unfold nextIndexOf. rewrite nextIndexOf_clamped by exact L. lia. }
  destruct (nth_error pathNodes (nextIndexOf nearest pathNodes))
    as [nextNode|] eqn:N; [|apply nth_error_None in N; lia].
  exists nearest, nextNode. repeat split; try assumption.
  unfold update, updateNavigationState.
  destruct pathNodes as [|p ps]; [congruence|].
  change (List.length (p :: ps) =? 0)%nat with false. cbv iota.
  fold distanceOf. rewrite E. cbv zeta. cbv iota. rewrite N.
  reflexivity.
Qed.

(** [onFix] stores the location and, when the guard lets it through, the
    heading, then runs the update with the heading of the previous
    render. *)
Lemma onFix_unfold (pathNodes : list PathNode) (position : Position.t)
    (st : HookState) :
  fix_ pathNodes position st
  = update pathNodes (userHeading st) (locationOf position)
      (match Coords.heading (Position.coords position) with
       | Undefined => setCurrentLocation (Some (locationOf position)) st
       | Null =>
           setUserHeading None
             (setCurrentLocation (Some (locationOf position)) st)
       | Value h =>
           if geb h 0
           then setUserHeading (Some h)
                  (setCurrentLocation (Some (locationOf position)) st)
           else setCurrentLocation (Some (locationOf position)) st
       end).
Proof. reflexivity. Qed.

(** No update writes the heading cell. *)
Lemma update_userHeading (pathNodes : list PathNode) (heading : option number)
    (location : GPSLocation) (st : HookState) :
  userHeading (update pathNodes heading location st) = userHeading st.
Proof.
  destruct pathNodes as [|p ps] eqn:P; [reflexivity|].
  destruct (update_nonempty (p :: ps) heading location st)
    as [n [nn [_ [_ [_ E]]]]]; [congruence|].
  rewrite E. reflexivity.
Qed.

(** The state after a fix on a non-empty list, cell by cell. *)
Lemma onFix_nonempty (pathNodes : list PathNode) (position : Position.t)
    (st : HookState) :
  pathNodes <> [] ->
  exists nearest nextNode,
    findNearestNode distanceOf (locationOf position) pathNodes = Some nearest /\
    (nearest < List.length pathNodes)%nat /\
    nth_error pathNodes (nextIndexOf nearest pathNodes) = Some nextNode /\
    let st' := fix_ pathNodes position st in
    let d := distanceTo distanceOf (locationOf position) nextNode in
    let rel := relativeTo (userHeading st) (locationOf position) nextNode in
    nearestNodeIndex st' = Some nearest /\
    distance st' = d /\
    relativeBearing st' = rel /\
    movementInstruction st' = generateMovementInstruction rel d (Some nextNode) /\
    arrivednextNode st' = ltb d 15 /\
    arriveAtDestination st'
    = (Z.of_nat (nextIndexOf nearest pathNodes) =? lastIndex pathNodes)%Z
      && ltb d 15.
Proof.
  intros Hne. rewrite onFix_unfold.
  set (st1 := match Coords.heading (Position.coords position) with
              | Undefined => _ | Null => _ | Value h => _ end).
  destruct (update_nonempty pathNodes (userHeading st) (locationOf position)
              st1 Hne) as [nearest [nextNode [E [L [N U]]]]].
  exists nearest, nextNode. rewrite U.
  repeat split; try assumption.
Qed.

(** C1.  After a fix on a non-empty list the stored nearest index is the
    locator's result, and the next index is [min (nearest + 1) last]:
    [nearest + 1] when the nearest node is not the last, the last index
    when it is.  This is the index of the node the distance, the
    bearing and the instruction are computed for, and the [nextNodeIndex]
    the hook returns. *)
Theorem next_index_clamped (pathNodes : list PathNode)
    (position : Position.t) (st : HookState) :
  pathNodes <> [] ->
  let st' := fix_ pathNodes position st in
  let last := (List.length pathNodes - 1)%nat in
  exists nearest nextNode,
    findNearestNode distanceOf (locationOf position) pathNodes = Some nearest /\
    nearestNodeIndex st' = Some nearest /\
    (nearest <= last)%nat /\
    nextIndexOf nearest pathNodes = Nat.min (nearest + 1) last /\
    (nearest <> last -> nextIndexOf nearest pathNodes = (nearest + 1)%nat) /\
    (nearest = last -> nextIndexOf nearest pathNodes = last) /\
    NavigationOutput.nextNodeIndex (render pathNodes st')
    = Some (Nat.min (nearest + 1) last) /\
    nth_error pathNodes (Nat.min (nearest + 1) last) = Some nextNode /\
    distance st' = distanceTo distanceOf (locationOf position) nextNode /\
    relativeBearing st'
    = relativeTo (userHeading st) (locationOf position) nextNode /\
    movementInstruction st'
    = generateMovementInstruction (relativeBearing st') (distance st')
        (Some nextNode).
Proof.
  intros Hne st' last.
  destruct (onFix_nonempty pathNodes position st Hne)
    as [nearest [nextNode [E [L [N [I [D [R [M _]]]]]]]]].
  fold st' in I, D, R, M.
  assert (C : nextIndexOf nearest pathNodes = Nat.min (nearest + 1) last)
    by (apply nextIndexOf_clamped; exact L).
  exists nearest, nextNode.
  repeat split; try assumption.
  - subst last; lia.
  - intros Hn. rewrite C. subst last; lia.
  - intros Hn. rewrite C. subst last; lia.
  - rewrite <- C. unfold render, nextIndexOf. simpl. rewrite I.
    destruct (Z.of_nat nearest <? lastIndex pathNodes)%Z; reflexivity.
  - rewrite <- C. exact N.
  - rewrite R, D. exact M.
Qed.


(** The heading a fix carries reaches the heading cell only: the
    relative bearing of the same update is computed from the heading of
    the state before the fix. *)
Lemma relative_bearing_from_previous_heading (pathNodes : list PathNode)
    (position : Position.t) (st : HookState) :
  pathNodes <> [] ->
  exists nearest nextNode,
    findNearestNode distanceOf (locationOf position) pathNodes = Some nearest /\
    nth_error pathNodes (nextIndexOf nearest pathNodes) = Some nextNode /\
    relativeBearing (fix_ pathNodes position st)
    = relativeTo (userHeading st) (locationOf position) nextNode.
Proof.
  intros Hne.
  destruct (onFix_nonempty pathNodes position st Hne)
    as [nearest [nextNode [E [_ [N [_ [_ [R _]]]]]]]].
  exists nearest, nextNode. auto.
Qed.

(** C3 on the code.  The first fix of a session, taken at the first node
    of [northwardPath] with heading 90: the heading is stored, yet the
    relative bearing published for this fix is the no-heading default 0,
    which differs from [normalizeBearingDifference (bearing - 90)] for
    every bearing in [0, 360) other than 90. *)
Theorem first_fix_ignores_its_heading :
  let st' := fix_ northwardPath (fixAt 0 0 (Some 90)) initialState in
  let bearingToNext := bearingOf 0 0 (1 # 1000) 0 in
  userHeading st' = Some 90%Q /\
  nearestNodeIndex st' = findNearestNode distanceOf
                           (locationOf (fixAt 0 0 (Some 90))) northwardPath /\
  relativeBearing st' = 0%Q /\
  ((0 <= bearingToNext < 360)%Q -> ~ (bearingToNext == 90)%Q ->
   ~ (normalizeBearingDifference (bearingToNext - 90)
      == relativeBearing st')%Q).
Proof.
  intros st' bearingToNext.
  assert (Hne : northwardPath <> []) by discriminate.
  destruct (onFix_nonempty northwardPath (fixAt 0 0 (Some 90)) initialState Hne)
    as [nearest [nextNode [E [_ [_ [I [_ [R _]]]]]]]].
  fold st' in I, R. simpl in R.
  repeat split.
  - subst st'. rewrite onFix_unfold, update_userHeading. reflexivity.
  - rewrite I, E. reflexivity.
  - exact R.
  - intros Hb Hn. rewrite R.
    destruct (normalizeBearingDifference_cases (bearingToNext - 90))
      as [[H Eq]|[[H Eq]|[H Eq]]]; rewrite Eq; lra.
Qed.

(** C7.  Engine errors change the instruction text and nothing else.  An
    update that finds the waypoint list empty sets the instruction to
    "No path nodes available" and leaves every other cell (location,
    indices, distance, relative bearing, heading, arrival flags, watch) as
    it was, and so the returned next index.  A location error sets the
    instruction to "Location error: " followed by the message and leaves
    every other cell as it was; a watch started by the tracking effect
    stays registered. *)
Theorem errors_reported_in_instruction (heading : option number)
    (location : GPSLocation) (message : string) (st : HookState) :
  update [] heading location st
  = mkHookState (currentLocation st) (nearestNodeIndex st) (distance st)
      (relativeBearing st) (userHeading st) "No path nodes available"
      (arrivednextNode st) (arriveAtDestination st) (watchIdRef st)
      (activeWatches st) /\
  NavigationOutput.nextNodeIndex (render [] (update [] heading location st))
  = NavigationOutput.nextNodeIndex (render [] st) /\
  onError message st
  = mkHookState (currentLocation st) (nearestNodeIndex st) (distance st)
      (relativeBearing st) (userHeading st) ("Location error: " ++ message)
      (arrivednextNode st) (arriveAtDestination st) (watchIdRef st)
      (activeWatches st) /\
  (forall (pathNodes : list PathNode) (newId : Z),
   pathNodes <> [] ->
   let tracking := trackingEffect true pathNodes newId st in
   watchIdRef (onError message tracking) = Some newId /\
   In newId (activeWatches (onError message tracking))).
Proof.
  split; [reflexivity|]. split; [reflexivity|]. split; [reflexivity|].
  intros [|p ps] newId Hne; [congruence|]. simpl. auto.
Qed.

(** The heading cell after a fix, by the heading the fix reports. *)
Lemma heading_after_fix (pathNodes : list PathNode) (position : Position.t)
    (st : HookState) :
  userHeading (fix_ pathNodes position st)
  = match Coords.heading (Position.coords position) with
    | Undefined => userHeading st
    | Null => None
    | Value h => if geb h 0 then Some h else userHeading st
    end.
Proof.
  rewrite onFix_unfold, update_userHeading.
  destruct (Coords.heading (Position.coords position)) as [| |h];
    [| |destruct (geb h 0)]; reflexivity.
Qed.

(** C8 on the code.  A fix with heading 90 stores 90, and a following fix
    whose heading is [null] (no heading available) does not keep it: the
    stored heading becomes [null].  So does it from every state and on
    every list.  A fix without the property, or with a negative heading,
    keeps the stored heading. *)
Theorem null_heading_erases_stored_heading :
  let first := fix_ eastwardPath (fixAt 0 0 (Some 90)) initialState in
  let second := fix_ eastwardPath (fixNullHeading 0 0) first in
  userHeading first = Some 90%Q /\
  userHeading second = None /\
  (forall pathNodes lat lon st,
     userHeading (fix_ pathNodes (fixNullHeading lat lon) st) = None) /\
  (forall pathNodes lat lon st,
     userHeading (fix_ pathNodes (fixAt lat lon None) st) = userHeading st) /\
  (forall pathNodes lat lon st,
     userHeading (fix_ pathNodes (fixAt lat lon (Some (-1))) st)
     = userHeading st).
Proof.
  intros first second. subst first second.
  repeat split; intros; rewrite ?heading_after_fix; reflexivity.
Qed.

End EngineFacts.

(** ** The engine on sample walks

    The statements below run the engine with the [SmallAngle] instance of
    [Math]. *)

Lemma next_index_clamped_witness :
  NavigationOutput.nextNodeIndex
    (render eastwardPath
       (SmallAngle.onFix eastwardPath (fixAt 0 0 (Some 90)) initialState))
  = Some 1%nat.
Proof.
  assert (Hne : eastwardPath <> []) by discriminate.
  destruct (next_index_clamped SmallAngle.sin SmallAngle.cos SmallAngle.sqrt
              SmallAngle.atan2 SmallAngle.PI eastwardPath
              (fixAt 0 0 (Some 90)) initialState Hne)
    as [nearest [nextNode [E [_ [_ [_ [_ [_ [R _]]]]]]]]].
  vm_compute in E. injection E as <-. exact R.
Defined.


Lemma errors_reported_in_instruction_witness :
  let st := SmallAngle.onFix eastwardPath (fixAt 0 0 (Some 90)) initialState in
  let st' := onError "timeout" st in
  movementInstruction st' = "Location error: timeout" /\
  distance st' = distance st /\ watchIdRef st' = watchIdRef st.
Proof.
  intros st st'.
  destruct (errors_reported_in_instruction SmallAngle.sin SmallAngle.cos
              SmallAngle.sqrt SmallAngle.atan2 SmallAngle.PI
              None (locationOf (fixAt 0 0 None)) "timeout" st)
    as [_ [_ [E _]]].
  subst st'. rewrite E. repeat split.
Defined.

(** The eastward walk of the specification's scenario: from the first node,
    heading east, the second node is about 111 m straight ahead. *)
Example eastward_walk :
  let first := SmallAngle.onFix eastwardPath (fixAt 0 0 (Some 90)) initialState in
  let second := SmallAngle.onFix eastwardPath (fixAt 0 0 (Some 90)) first in
  nearestNodeIndex second = Some 0%nat /\
  NavigationOutput.nextNodeIndex (render eastwardPath second) = Some 1%nat /\
  (111 < distance second < 112)%Q /\
  (relativeBearing second == 0)%Q /\
  movementInstruction second = "Continue straight in 110m" /\
  arriveAtDestination second = false.
Proof. vm_compute. repeat split; discriminate. Qed.

(** The northward walk with heading east: the first fix publishes the
    no-heading default, the next one the quarter turn to the left. *)
Example northward_walk :
  let first := SmallAngle.onFix northwardPath (fixAt 0 0 (Some 90)) initialState in
  let second := SmallAngle.onFix northwardPath (fixAt 0 0 (Some 90)) first in
  (SmallAngle.calculateBearing 0 0 (1 # 1000) 0 == 0)%Q /\
  movementInstruction first = "Continue straight in 110m" /\
  (relativeBearing first == 0)%Q /\
  (relativeBearing second == -90)%Q /\
  movementInstruction second = "Turn left in 110m".
Proof. vm_compute. repeat split. Qed.

(** * Further properties *)

(** ** Bearings *)

Local Open Scope Q_scope.

(** The remainder by 360 keeps the sign of its argument and is smaller
    than 360 in absolute value. *)
Lemma js_rem_360 (x : number) :
  (0 <= x -> 0 <= js_rem x 360 < 360) /\
  (x < 0 -> -360 < js_rem x 360 <= 0).
Proof.
  unfold js_rem, Qtrunc.
  assert (E : x / 360 == x * (1 # 360)) by field.
  pose proof (Qfloor_le (x / 360)) as Fl.
  pose proof (Qlt_floor (x / 360)) as Fu.
  pose proof (Qle_ceiling (x / 360)) as Cl.
  pose proof (Qceiling_lt (x / 360)) as Cu.
  rewrite inject_Z_plus in Fu.
  unfold Z.sub in Cu. rewrite inject_Z_plus, inject_Z_opp in Cu.
  change (inject_Z 1) with 1 in Fu, Cu.
  destruct (ltb (x / 360) 0) eqn:L; order_facts;
    set (f := inject_Z (Qfloor (x / 360))) in *;
    set (c := inject_Z (Qceiling (x / 360))) in *;
    rewrite E in *; split; intros; lra.
Qed.

Lemma calculateBearing_unfold (Math_sin Math_cos : number -> number)
    (Math_atan2 : number -> number -> number) (Math_PI : number)
    (lat1 lon1 lat2 lon2 : number) :
  calculateBearing Math_sin Math_cos Math_atan2 Math_PI lat1 lon1 lat2 lon2
  = js_rem
      (initialBearing Math_sin Math_cos Math_atan2 Math_PI lat1 lon1 lat2 lon2
       * 180 / Math_PI + 360) 360.
Proof. reflexivity. Qed.

(** Radians within a half turn are degrees within 180. *)
Lemma degrees_bounded (a Math_PI : number) :
  0 < Math_PI -> - Math_PI <= a <= Math_PI ->
  -180 <= a * 180 / Math_PI <= 180.
Proof.
  intros Hpi [Lo Hi].
  assert (Hne : ~ Math_PI == 0) by lra.
  split.
  - apply Qle_shift_div_l; [exact Hpi | lra].
  - apply Qle_shift_div_r; [exact Hpi | lra].
Qed.

(** With a positive [Math.PI] and an arctangent within a half turn the
    result is a compass bearing. *)
Lemma calculateBearing_compass (Math_sin Math_cos : number -> number)
    (Math_atan2 : number -> number -> number) (Math_PI : number)
    (lat1 lon1 lat2 lon2 : number) :
  0 < Math_PI ->
  - Math_PI
  <= initialBearing Math_sin Math_cos Math_atan2 Math_PI lat1 lon1 lat2 lon2
  <= Math_PI ->
  0 <= calculateBearing Math_sin Math_cos Math_atan2 Math_PI lat1 lon1 lat2 lon2
  < 360.
Proof.
  intros Hpi Ha. rewrite calculateBearing_unfold.
  apply (proj1 (js_rem_360 _)).
  pose proof (degrees_bounded _ Math_PI Hpi Ha). lra.
Qed.

(** X1.  [calculateBearing] always returns more than -360 and less than
    360, and a bearing in [0, 360) whenever [Math.PI] is positive and the
    arctangent lies within a half turn. *)
Theorem calculateBearing_range (Math_sin Math_cos : number -> number)
    (Math_atan2 : number -> number -> number) (Math_PI : number)
    (lat1 lon1 lat2 lon2 : number) :
  let bearing :=
    calculateBearing Math_sin Math_cos Math_atan2 Math_PI lat1 lon1 lat2 lon2 in
  let angle :=
    initialBearing Math_sin Math_cos Math_atan2 Math_PI lat1 lon1 lat2 lon2 in
  -360 < bearing < 360 /\
  (0 < Math_PI -> - Math_PI <= angle <= Math_PI -> 0 <= bearing < 360).
Proof.
  intros bearing angle. split.
  - subst bearing. rewrite calculateBearing_unfold. fold angle.
    destruct (js_rem_360 (angle * 180 / Math_PI + 360)) as [P N].
    destruct (Qlt_le_dec (angle * 180 / Math_PI + 360) 0) as [Lt|Ge].
    + specialize (N Lt). lra.
    + specialize (P Ge). lra.
  - intros Hpi Ha. now apply calculateBearing_compass.
Qed.

Lemma calculateBearing_range_witness :
  0 <= SmallAngle.calculateBearing 0 0 0 (1 # 1000) < 360.
Proof.
  apply (proj2 (calculateBearing_range SmallAngle.sin SmallAngle.cos
                  SmallAngle.atan2 SmallAngle.PI 0 0 0 (1 # 1000))).
  - reflexivity.
  - vm_compute. split; discriminate.
Defined.

(** ** The distance suffix and the arrival message *)

Local Open Scope string_scope.

Lemma lastChar_app (s t : string) :
  t <> EmptyString -> lastChar (s ++ t) = lastChar t.
Proof.
  intros Ht. induction s as [|c s IH]; [reflexivity|].
  simpl. destruct (s ++ t) eqn:E; [|exact IH].
  destruct s; simpl in E; [congruence | discriminate].
Qed.

Lemma lastChar_suffix (prefix digits : string) :
  lastChar (prefix ++ " in " ++ digits ++ "m") = Some "m"%char.
Proof.
  rewrite lastChar_app.
  - change (" in " ++ digits ++ "m") with (" in " ++ (digits ++ "m")).
    rewrite lastChar_app.
    + rewrite lastChar_app; [reflexivity | discriminate].
    + destruct digits; discriminate.
  - discriminate.
Qed.

(** The figure the suffix shows for a distance of 15 m or more. *)
Lemma distanceSuffix_figure (d : number) :
  (15 <= d)%Q ->
  exists n : Z,
    distanceSuffix d = " in " ++ show_Z n ++ "m" /\
    (15 <= n)%Z /\
    ((d <= 100)%Q -> n = Math_round d /\ (n <= 100)%Z) /\
    ((100 < d)%Q -> (100 <= n)%Z /\ exists k : Z, n = (10 * k)%Z).
Proof.
  intros Hd. unfold distanceSuffix.
  destruct (gtb d 100) eqn:G; order_facts.
  - exists (roundTo 10 d). split; [reflexivity|].
    assert (B : (10 <= Qfloor (d / inject_Z 10 + (1 # 2)))%Z).
    { change 10%Z with (Qfloor (inject_Z 10)) at 1.
      apply Qfloor_resp_le.
      assert (E : (d / inject_Z 10 == d * (1 # 10))%Q)
        by (unfold inject_Z; field).
      rewrite E. change (inject_Z 10) with (10 # 1)%Q. lra. }
    unfold roundTo. split; [lia|]. split.
    + intros Le. lra.
    + intros _. split; [lia | eexists; reflexivity].
  - destruct (gtb d 0) eqn:G0; order_facts; [|lra].
    exists (roundTo 1 d). split; [reflexivity|].
    rewrite roundTo_1. unfold Math_round.
    assert (B : (15 <= Qfloor (d + (1 # 2)))%Z).
    { change 15%Z with (Qfloor (inject_Z 15)) at 1.
      apply Qfloor_resp_le. change (inject_Z 15) with (15 # 1)%Q. lra. }
    assert (U : (Qfloor (d + (1 # 2)) <= 100)%Z).
    { change 100%Z with (Qfloor (201 # 2)) at 1.
      apply Qfloor_resp_le. lra. }
    split; [exact B|]. split.
    + intros _. split; [reflexivity | exact U].
    + intros Gt. lra.
Qed.

(** X2.  Whenever the generator composes an instruction (distance of 15 m
    or more) it ends in a distance suffix, so the branch that appends
    nothing is never taken.  The figure shown is at least 15; up to 100 m
    it is the rounded distance and at most 100, above 100 m it is a
    multiple of 10 and at least 100. *)
Theorem instruction_always_shows_distance (rb d : number)
    (nextNode : option PathNode) :
  (15 <= d)%Q ->
  exists (prefix : string) (n : Z),
    generateMovementInstruction rb d nextNode
    = prefix ++ " in " ++ show_Z n ++ "m" /\
    (15 <= n)%Z /\
    ((d <= 100)%Q -> n = Math_round d /\ (n <= 100)%Z) /\
    ((100 < d)%Q -> (100 <= n)%Z /\ exists k : Z, n = (10 * k)%Z).
Proof.
  intros Hd.
  destruct (distanceSuffix_figure d Hd) as [n [E F]].
  exists (addFloor nextNode (addLandmark nextNode
            (addCustomInstruction nextNode (basePhrase rb)))), n.
  split; [|exact F].
  rewrite generateMovementInstruction_steps by exact Hd.
  rewrite addDistance_suffix, E. reflexivity.
Qed.

Lemma instruction_always_shows_distance_witness :
  exists (prefix : string) (n : Z),
    generateMovementInstruction 0 (1004 # 10) (Some lobbyNode)
    = prefix ++ " in " ++ show_Z n ++ "m" /\ (100 <= n)%Z.
Proof.
  assert (Hd : (15 <= 1004 # 10)%Q) by discriminate.
  destruct (instruction_always_shows_distance 0 (1004 # 10) (Some lobbyNode) Hd)
    as [prefix [n [E [_ [_ H]]]]].
  exists prefix, n. split; [exact E|]. apply H. reflexivity.
Defined.

(** A composed instruction ends in "m", the arrival message does not. *)
Lemma composed_not_arrival (rb d : number) (nextNode : option PathNode) :
  (15 <= d)%Q ->
  generateMovementInstruction rb d nextNode <> "You have reached the waypoint".
Proof.
  intros Ge E.
  destruct (distanceSuffix_figure d Ge) as [n [S _]].
  rewrite generateMovementInstruction_steps in E by exact Ge.
  rewrite addDistance_suffix, S in E.
  apply (f_equal lastChar) in E. rewrite lastChar_suffix in E.
  discriminate.
Qed.

(** X3.  The generator returns "You have reached the waypoint" exactly
    when the distance is below 15 m: no override text, landmark or floor
    can make a composed instruction equal to the arrival message. *)
Theorem arrival_message_only_on_arrival (rb d : number)
    (nextNode : option PathNode) :
  generateMovementInstruction rb d nextNode = "You have reached the waypoint"
  <-> (d < 15)%Q.
Proof.
  split.
  - intros E. destruct (Qlt_le_dec d 15) as [Lt|Ge]; [exact Lt|].
    exfalso. exact (composed_not_arrival rb d nextNode Ge E).
  - apply generateMovementInstruction_arrival.
Qed.

(** ** Sequences of fixes and errors *)

Local Open Scope Q_scope.

Lemma normalizeBearingDifference_bounded (x : number) :
  -540 <= x <= 540 -> -180 <= normalizeBearingDifference x <= 180.
Proof.
  intros Hx.
  destruct (normalizeBearingDifference_cases x) as [[H E]|[[H E]|[H E]]];
    rewrite E; lra.
Qed.

Lemma headingAfter_idem (position : Position.t) (known : option number) :
  headingAfter position (headingAfter position known)
  = headingAfter position known.
Proof. unfold headingAfter. destruct (acceptedHeading position); reflexivity. Qed.

Section EngineRuns.

Variables Math_sin Math_cos Math_sqrt : number -> number.
Variable Math_atan2 : number -> number -> number.
Variable Math_PI : number.

Let distanceOf := calculateDistance Math_sin Math_cos Math_sqrt Math_atan2 Math_PI.
Let bearingOf := calculateBearing Math_sin Math_cos Math_atan2 Math_PI.
Let angleOf := initialBearing Math_sin Math_cos Math_atan2 Math_PI.
Let fix_ := onFix Math_sin Math_cos Math_sqrt Math_atan2 Math_PI.
Let run := runFixes Math_sin Math_cos Math_sqrt Math_atan2 Math_PI.

Let relativeTo (heading : option number) (location : GPSLocation)
    (nextNode : PathNode) : number :=
  match heading with
  | Some h =>
      normalizeBearingDifference
        (bearingOf (latitude location) (longitude location)
           (GeoPoint.latitude (coordinates nextNode))
           (GeoPoint.longitude (coordinates nextNode)) - h)
  | None => 0
  end.

(** The whole state after a fix on a non-empty list. *)
Lemma onFix_state (pathNodes : list PathNode) (position : Position.t)
    (st : HookState) :
  pathNodes <> [] ->
  exists nearest nextNode,
    findNearestNode distanceOf (locationOf position) pathNodes = Some nearest /\
    (nearest < List.length pathNodes)%nat /\
    nth_error pathNodes (nextIndexOf nearest pathNodes) = Some nextNode /\
    fix_ pathNodes position st
    = let d := distanceTo distanceOf (locationOf position) nextNode in
      let rel := relativeTo (userHeading st) (locationOf position) nextNode in
      mkHookState (Some (locationOf position)) (Some nearest) d rel
        (headingAfter position (userHeading st))
        (generateMovementInstruction rel d (Some nextNode)) (ltb d 15)
        ((Z.of_nat (nextIndexOf nearest pathNodes) =? lastIndex pathNodes)%Z
         && ltb d 15)
        (watchIdRef st) (activeWatches st).
Proof.
  intros Hne. unfold fix_. rewrite onFix_unfold.
  set (st1 := match Coords.heading (Position.coords position) with
              | Undefined => _ | Null => _ | Value h => _ end).
  destruct (update_nonempty Math_sin Math_cos Math_sqrt Math_atan2 Math_PI
              pathNodes (userHeading st) (locationOf position) st1 Hne)
    as [nearest [nextNode [E [L [N U]]]]].
  exists nearest, nextNode. repeat split; try assumption.
  rewrite U. subst st1. unfold headingAfter, acceptedHeading.
  destruct (Coords.heading (Position.coords position)) as [| |h];
    [| |destruct (geb h 0)]; reflexivity.
Qed.

(** The state after a fix on the empty list. *)
Lemma onFix_empty (position : Position.t) (st : HookState) :
  fix_ [] position st
  = mkHookState (Some (locationOf position)) (nearestNodeIndex st)
      (distance st) (relativeBearing st)
      (headingAfter position (userHeading st)) "No path nodes available"
      (arrivednextNode st) (arriveAtDestination st) (watchIdRef st)
      (activeWatches st).
Proof.
  unfold fix_. rewrite onFix_unfold. unfold headingAfter, acceptedHeading.
  destruct (Coords.heading (Position.coords position)) as [| |h];
    [| |destruct (geb h 0)]; reflexivity.
Qed.

Lemma onFix_heading (pathNodes : list PathNode) (position : Position.t)
    (st : HookState) :
  userHeading (fix_ pathNodes position st)
  = headingAfter position (userHeading st).
Proof.
  destruct pathNodes as [|p ps].
  - rewrite onFix_empty. reflexivity.
  - destruct (onFix_state (p :: ps) position st) as [n [nn [_ [_ [_ E]]]]];
      [discriminate|].
    rewrite E. reflexivity.
Qed.

(** X4.  After a fix on a non-empty list the published relative bearing
    lies in [-180, 180], provided [Math.PI] is positive, the arctangent
    towards every node lies within a half turn, and the heading known
    before the fix, if any, lies in [0, 360]. *)
Theorem relativeBearing_in_range (pathNodes : list PathNode)
    (position : Position.t) (st : HookState) :
  pathNodes <> [] ->
  0 < Math_PI ->
  (forall node, In node pathNodes ->
     - Math_PI
     <= angleOf (Coords.latitude (Position.coords position))
          (Coords.longitude (Position.coords position))
          (GeoPoint.latitude (coordinates node))
          (GeoPoint.longitude (coordinates node))
     <= Math_PI) ->
  (forall h, userHeading st = Some h -> 0 <= h <= 360) ->
  -180 <= relativeBearing (fix_ pathNodes position st) <= 180.
Proof.
  intros Hne Hpi Hang Hh.
  destruct (onFix_state pathNodes position st Hne)
    as [nearest [nextNode [_ [_ [N E]]]]].
  rewrite E. simpl. unfold relativeTo.
  destruct (userHeading st) as [h|]; [|split; discriminate].
  specialize (Hh h eq_refl).
  apply nth_error_In in N.
  pose proof (calculateBearing_compass Math_sin Math_cos Math_atan2 Math_PI
                _ _ _ _ Hpi (Hang nextNode N)) as B.
  apply normalizeBearingDifference_bounded.
  unfold bearingOf. simpl. lra.
Qed.

(** X5.  Over a sequence of fixes the stored heading is what the last fix
    that writes the heading cell has written: its heading when that is a
    non-negative number, no heading when it is [null].  When every fix
    reports a negative heading or none, the heading stored at the start is
    kept. *)
Theorem heading_after_run (pathNodes : list PathNode)
    (fixes : list Position.t) (st : HookState) :
  ((forall p, In p fixes -> acceptedHeading p = None) ->
   userHeading (run pathNodes fixes st) = userHeading st) /\
  (forall (before : list Position.t) p after written,
     fixes = (before ++ p :: after)%list ->
     acceptedHeading p = Some written ->
     (forall q, In q after -> acceptedHeading q = None) ->
     userHeading (run pathNodes fixes st) = written) /\
  (forall p,
     acceptedHeading p
     = match Coords.heading (Position.coords p) with
       | Undefined => None
       | Null => Some None
       | Value h => if geb h 0 then Some (Some h) else None
       end).
Proof.
  assert (Quiet : forall fs s,
            (forall p, In p fs -> acceptedHeading p = None) ->
            userHeading (run pathNodes fs s) = userHeading s).
  { induction fs as [|f fs IH]; intros s Hq; [reflexivity|].
    unfold run, runFixes. simpl. fold (fix_ pathNodes f s).
    fold (runFixes Math_sin Math_cos Math_sqrt Math_atan2 Math_PI pathNodes fs
            (fix_ pathNodes f s)).
    fold (run pathNodes fs (fix_ pathNodes f s)).
    rewrite IH by (intros p Hp; apply Hq; right; exact Hp).
    rewrite onFix_heading. unfold headingAfter.
    rewrite (Hq f (or_introl eq_refl)). reflexivity. }
  split; [apply Quiet|]. split; [|reflexivity].
  intros before p after written -> Hp Hafter.
  unfold run, runFixes. rewrite fold_left_app. simpl.
  set (s0 := fold_left _ before st).
  fold (fix_ pathNodes p s0).
  fold (runFixes Math_sin Math_cos Math_sqrt Math_atan2 Math_PI pathNodes after
          (fix_ pathNodes p s0)).
  fold (run pathNodes after (fix_ pathNodes p s0)).
  rewrite Quiet by exact Hafter.
  rewrite onFix_heading. unfold headingAfter. rewrite Hp. reflexivity.
Qed.

(** X6.  The stored heading is never negative: starting from a state with
    no heading or a non-negative one, it stays so over every sequence of
    fixes, whatever headings the fixes report. *)
Theorem heading_never_negative (pathNodes : list PathNode)
    (fixes : list Position.t) (st : HookState) :
  (forall h, userHeading st = Some h -> 0 <= h) ->
  forall h, userHeading (run pathNodes fixes st) = Some h -> 0 <= h.
Proof.
  revert st. induction fixes as [|f fs IH]; intros st Hst; [exact Hst|].
  unfold run, runFixes. simpl. fold (fix_ pathNodes f st).
  fold (runFixes Math_sin Math_cos Math_sqrt Math_atan2 Math_PI pathNodes fs
          (fix_ pathNodes f st)).
  fold (run pathNodes fs (fix_ pathNodes f st)).
  apply IH. intros h. rewrite onFix_heading.
  unfold headingAfter, acceptedHeading.
  destruct (Coords.heading (Position.coords f)) as [| |g];
    [apply Hst | discriminate |].
  destruct (geb g 0) eqn:G; [|apply Hst].
  intros [= <-]. now apply geb_ge.
Qed.

(** X7.  On a non-empty list a fix overwrites the location, the indices,
    the distance, the relative bearing, the flags and the instruction: two
    states with the same known heading and the same watch are taken to the
    same state. *)
Theorem fix_forgets_earlier_state (pathNodes : list PathNode)
    (position : Position.t) (st1 st2 : HookState) :
  pathNodes <> [] ->
  userHeading st1 = userHeading st2 ->
  watchIdRef st1 = watchIdRef st2 ->
  activeWatches st1 = activeWatches st2 ->
  fix_ pathNodes position st1 = fix_ pathNodes position st2.
Proof.
  intros Hne Hh Hw Ha.
  destruct (onFix_state pathNodes position st1 Hne)
    as [n1 [nn1 [E1 [_ [N1 S1]]]]].
  destruct (onFix_state pathNodes position st2 Hne)
    as [n2 [nn2 [E2 [_ [N2 S2]]]]].
  rewrite E1 in E2. injection E2 as <-.
  rewrite N1 in N2. injection N2 as <-.
  rewrite S1, S2, Hh, Hw, Ha. reflexivity.
Qed.

(** X8.  Delivering the same fix again and again settles after two
    deliveries: the third changes nothing. *)
Theorem repeated_fix_settles (pathNodes : list PathNode)
    (position : Position.t) (st : HookState) :
  fix_ pathNodes position (fix_ pathNodes position (fix_ pathNodes position st))
  = fix_ pathNodes position (fix_ pathNodes position st).
Proof.
  destruct pathNodes as [|p ps].
  - rewrite !onFix_empty. simpl. rewrite !headingAfter_idem. reflexivity.
  - assert (Hne : p :: ps <> []) by discriminate.
    set (s1 := fix_ (p :: ps) position st).
    set (s2 := fix_ (p :: ps) position s1).
    destruct (onFix_state (p :: ps) position st Hne)
      as [n1 [nn1 [E1 [_ [N1 S1]]]]].
    destruct (onFix_state (p :: ps) position s1 Hne)
      as [n2 [nn2 [E2 [_ [N2 S2]]]]].
    destruct (onFix_state (p :: ps) position s2 Hne)
      as [n3 [nn3 [E3 [_ [N3 S3]]]]].
    rewrite E1 in E2, E3. injection E2 as <-. injection E3 as <-.
    rewrite N1 in N2, N3. injection N2 as <-. injection N3 as <-.
    fold s1 in S1. fold s2 in S2.
    assert (H2 : userHeading s2 = userHeading s1).
    { rewrite S2. simpl. rewrite S1. simpl. apply headingAfter_idem. }
    assert (W : watchIdRef s2 = watchIdRef s1) by (rewrite S2; reflexivity).
    assert (A : activeWatches s2 = activeWatches s1) by (rewrite S2; reflexivity).
    rewrite S3, H2, W, A. symmetry. exact S2.
Qed.

(** X9.  A location error leaves no trace once the next fix arrives: the
    fix after an error gives the state the fix alone would have given. *)
Theorem fix_erases_error (pathNodes : list PathNode) (position : Position.t)
    (message : string) (st : HookState) :
  fix_ pathNodes position
    (onError message st)
  = fix_ pathNodes position st.
Proof.
  destruct pathNodes as [|p ps].
  - rewrite !onFix_empty. reflexivity.
  - assert (Hne : p :: ps <> []) by discriminate.
    destruct (onFix_state (p :: ps) position st Hne)
      as [n1 [nn1 [E1 [_ [N1 S1]]]]].
    destruct (onFix_state (p :: ps) position (onError message st) Hne)
      as [n2 [nn2 [E2 [_ [N2 S2]]]]].
    rewrite E1 in E2. injection E2 as <-.
    rewrite N1 in N2. injection N2 as <-.
    rewrite S1, S2. reflexivity.
Qed.

(** X10.  After a fix on a non-empty list the instruction is the arrival
    message exactly when "arrived at next" is set; "arrived at
    destination" implies "arrived at next", and is only set when the
    nearest node is the last or the last but one. *)
Theorem flags_match_instruction (pathNodes : list PathNode)
    (position : Position.t) (st : HookState) :
  pathNodes <> [] ->
  let st' := fix_ pathNodes position st in
  (movementInstruction st' = "You have reached the waypoint"%string
   <-> arrivednextNode st' = true) /\
  (arriveAtDestination st' = true -> arrivednextNode st' = true) /\
  (arriveAtDestination st' = true ->
   exists nearest, nearestNodeIndex st' = Some nearest /\
                   (List.length pathNodes <= nearest + 2)%nat).
Proof.
  intros Hne st'.
  destruct (onFix_state pathNodes position st Hne)
    as [nearest [nextNode [_ [L [_ E]]]]].
  subst st'. rewrite E. cbv zeta. simpl.
  set (d := distanceTo distanceOf (locationOf position) nextNode).
  set (rel := relativeTo (userHeading st) (locationOf position) nextNode).
  split; [|split].
  - split.
    + intros M. apply ltb_lt.
      destruct (Qlt_le_dec d 15) as [Lt|Ge]; [exact Lt|].
      exfalso. exact (composed_not_arrival rel d (Some nextNode) Ge M).
    + intros A. apply ltb_lt in A.
      now apply generateMovementInstruction_arrival.
  - intros D. apply andb_true_iff in D. apply D.
  - intros D. apply andb_true_iff in D. destruct D as [D _].
    apply Z.eqb_eq in D. exists nearest. split; [reflexivity|].
    unfold nextIndexOf, lastIndex in D.
    destruct (Z.of_nat nearest <? Z.of_nat (List.length pathNodes) - 1)%Z; lia.
Qed.

(** The scan reads the coordinates of the nodes only. *)
Lemma scanNearest_map (f : PathNode -> PathNode) (location : GPSLocation) :
  (forall node, distanceTo distanceOf location (f node)
                = distanceTo distanceOf location node) ->
  forall rest i nearestIndex minDistance,
    scanNearest distanceOf location (map f rest) i nearestIndex minDistance
    = scanNearest distanceOf location rest i nearestIndex minDistance.
Proof.
  intros Hf. induction rest as [|node rest IH]; intros; simpl; [reflexivity|].
  rewrite Hf. destruct (ltb _ minDistance); apply IH.
Qed.

(** X11.  The path the navigation screen hands to the engine is rebuilt
    from the coordinates of the route: it has the nodes' coordinates,
    floors and indoor flags but none of their instruction texts or
    landmarks.  A fix therefore gives the same nearest index, distance,
    relative bearing and flags as on the route's own nodes, while the
    instruction is composed from the base phrase, the floor and the
    distance only. *)
Theorem screen_path_drops_guidance (nodes : list PathNode)
    (position : Position.t) (st : HookState) :
  let shown := screenPathNodes (transformToCoordinates nodes) in
  let onRoute := fix_ nodes position st in
  let onScreen := fix_ shown position st in
  List.length shown = List.length nodes /\
  (forall node, In node shown ->
     instructionText node = None /\ landmark node = None) /\
  nearestNodeIndex onScreen = nearestNodeIndex onRoute /\
  distance onScreen = distance onRoute /\
  relativeBearing onScreen = relativeBearing onRoute /\
  arrivednextNode onScreen = arrivednextNode onRoute /\
  arriveAtDestination onScreen = arriveAtDestination onRoute /\
  (nodes <> [] -> 15 <= distance onScreen ->
   exists nearest nextNode,
     nearestNodeIndex onRoute = Some nearest /\
     nth_error nodes (nextIndexOf nearest nodes) = Some nextNode /\
     movementInstruction onScreen
     = (basePhrase (relativeBearing onScreen) ++ floorSuffix nextNode
        ++ distanceSuffix (distance onScreen))%string).
Proof.
  intros shown onRoute onScreen.
  set (strip := fun node : PathNode =>
         {| coordinates :=
              GeoPoint.mk (GeoPoint.latitude (coordinates node))
                (GeoPoint.longitude (coordinates node));
            order := order node;
            instructionText := None;
            landmark := None;
            floor := floor node;
            isIndoor := isIndoor node |}).
  assert (Hshown : shown = map strip nodes).
  { subst shown. unfold screenPathNodes, transformToCoordinates.
    rewrite map_map. reflexivity. }
  assert (Hlen : List.length shown = List.length nodes)
    by (rewrite Hshown; apply length_map).
  split; [exact Hlen|].
  split.
  { intros node Hin. rewrite Hshown in Hin. apply in_map_iff in Hin.
    destruct Hin as [n [<- _]]. split; reflexivity. }
  destruct nodes as [|p ps].
  { repeat split; try reflexivity. intros H; congruence. }
  assert (Hne : p :: ps <> []) by discriminate.
  assert (Hne' : shown <> []) by (rewrite Hshown; discriminate).
  destruct (onFix_state (p :: ps) position st Hne)
    as [n1 [nn1 [E1 [L1 [N1 S1]]]]].
  destruct (onFix_state shown position st Hne')
    as [n2 [nn2 [E2 [L2 [N2 S2]]]]].
  assert (En : n2 = n1).
  { rewrite Hshown in E2. simpl in E1, E2.
    rewrite (scanNearest_map strip) in E2 by reflexivity.
    change (distanceTo distanceOf (locationOf position) (strip p))
      with (distanceTo distanceOf (locationOf position) p) in E2.
    congruence. }
  subst n2.
  assert (Ex : nextIndexOf n1 shown = nextIndexOf n1 (p :: ps))
    by (unfold nextIndexOf, lastIndex; rewrite Hlen; reflexivity).
  assert (El : lastIndex shown = lastIndex (p :: ps))
    by (unfold lastIndex; rewrite Hlen; reflexivity).
  assert (Enn : nn2 = strip nn1).
  { rewrite Ex, Hshown in N2.
    rewrite (map_nth_error strip _ _ N1) in N2. congruence. }
  subst nn2.
  fold onRoute in S1. fold onScreen in S2.
  rewrite S1, S2, Ex, El. cbv zeta. simpl.
  repeat split.
  intros _ Hd. exists n1, nn1. repeat split; [exact N1|].
  change (distanceTo distanceOf (locationOf position) (strip nn1))
    with (distanceTo distanceOf (locationOf position) nn1) in *.
  change (relativeTo (userHeading st) (locationOf position) (strip nn1))
    with (relativeTo (userHeading st) (locationOf position) nn1).
  rewrite generator_is_policy. unfold policyInstruction.
  destruct (ltb _ 15) eqn:Lt; [order_facts; lra|]. reflexivity.
Qed.

(** X12.  On the navigation screen, whenever the final-arrival condition
    holds after a fix (nearest node is the last one, distance at most 5 m,
    not yet triggered), the engine has set both arrival flags as well. *)
Theorem final_arrival_implies_destination
    (pathCoordinates : list RouteCoordinate.t) (position : Position.t)
    (st : HookState) (hasTriggeredFinalArrival : bool) :
  let pathNodes := screenPathNodes pathCoordinates in
  let st' := fix_ pathNodes position st in
  finalArrival (render pathNodes st') (List.length pathCoordinates)
    hasTriggeredFinalArrival = true ->
  arrivednextNode st' = true /\ arriveAtDestination st' = true /\
  hasTriggeredFinalArrival = false.
Proof.
  intros pathNodes st' F.
  assert (Hlen : List.length pathNodes = List.length pathCoordinates)
    by apply length_map.
  unfold finalArrival in F. simpl in F.
  apply andb_true_iff in F. destruct F as [F T].
  apply andb_true_iff in F. destruct F as [Fn Fd].
  apply Qle_bool_iff in Fd. unfold FINAL_ARRIVAL_THRESHOLD in Fd.
  destruct pathCoordinates as [|c cs].
  { destruct (nearestNodeIndex st'); [|discriminate].
    apply Z.eqb_eq in Fn. simpl in Fn. lia. }
  assert (Hne : pathNodes <> []) by discriminate.
  destruct (onFix_state pathNodes position st Hne)
    as [nearest [nextNode [_ [L [_ E]]]]].
  fold st' in E.
  assert (Fn' : Z.of_nat nearest = lastIndex pathNodes).
  { rewrite E in Fn. simpl in Fn. apply Z.eqb_eq in Fn.
    unfold lastIndex. rewrite Hlen. exact Fn. }
  assert (A : ltb (distanceTo distanceOf (locationOf position) nextNode) 15
              = true).
  { rewrite E in Fd. simpl in Fd. apply ltb_lt. lra. }
  assert (Nx : nextIndexOf nearest pathNodes = nearest).
  { unfold nextIndexOf. rewrite Fn'. now rewrite Z.ltb_irrefl. }
  rewrite E. cbv zeta. simpl. rewrite A, Nx, Fn', Z.eqb_refl.
  repeat split. now destruct hasTriggeredFinalArrival.
Qed.

End EngineRuns.

(** ** The tracking effect *)




(** ** The navigation screen *)

(** X14.  The label under the screen's arrow and the base phrase of the
    instruction always name the same direction: both switch at -45, -15,
    15 and 45, with the bounds on the same side. *)
Theorem indicator_agrees_with_phrase (rb : number) :
  (bearingIndicator rb = "⬅ LEFT" <-> basePhrase rb = "Turn left") /\
  (bearingIndicator rb = "RIGHT ➡" <-> basePhrase rb = "Turn right") /\
  (bearingIndicator rb = "↖ L" <-> basePhrase rb = "Slight left") /\
  (bearingIndicator rb = "R ↗" <-> basePhrase rb = "Slight right") /\
  (bearingIndicator rb = "↑ STRAIGHT" <-> basePhrase rb = "Continue straight").
Proof.
  unfold bearingIndicator, basePhrase.
  assert (Abs : (0 <= rb /\ Qabs rb == rb) \/ (rb < 0 /\ Qabs rb == - rb)).
  { destruct (Qlt_le_dec rb 0) as [N|P].
    - right. split; [exact N|]. apply Qabs_neg. lra.
    - left. split; [exact P|]. now apply Qabs_pos. }
  destruct (gtb (Qabs rb) 45) eqn:G;
    destruct (ltb rb (-45)) eqn:A;
    destruct (gtb rb 45) eqn:B;
    destruct (ltb rb 0) eqn:Z0;
    destruct (ltb rb (-15)) eqn:C;
    destruct (gtb rb 15) eqn:D;
    order_facts;
    try (exfalso; destruct Abs as [[S E]|[S E]]; lra);
    repeat split; intros; try discriminate; reflexivity.
Qed.

(** ** The further properties on sample walks *)

Lemma relativeBearing_in_range_witness :
  let first := SmallAngle.onFix eastwardPath (fixAt 0 0 (Some 350)) initialState in
  let second := SmallAngle.onFix eastwardPath (fixAt 0 0 None) first in
  (-180 <= relativeBearing second <= 180)%Q.
Proof.
  intros first second.
  apply (relativeBearing_in_range SmallAngle.sin SmallAngle.cos SmallAngle.sqrt
           SmallAngle.atan2 SmallAngle.PI eastwardPath (fixAt 0 0 None) first).
  - discriminate.
  - reflexivity.
  - intros node [<-|[<-|[]]]; vm_compute; split; discriminate.
  - intros h H. vm_compute in H. injection H as <-. split; discriminate.
Defined.

(** A heading of 90 followed by a [null] heading leaves no heading; a
    later 45 followed by a fix without heading leaves 45. *)
Lemma heading_after_run_witness :
  userHeading
    (runFixes SmallAngle.sin SmallAngle.cos SmallAngle.sqrt SmallAngle.atan2
       SmallAngle.PI eastwardPath
       [fixAt 0 0 (Some 90); fixNullHeading 0 0] initialState) = None /\
  userHeading
    (runFixes SmallAngle.sin SmallAngle.cos SmallAngle.sqrt SmallAngle.atan2
       SmallAngle.PI eastwardPath
       [fixNullHeading 0 0; fixAt 0 0 (Some 45); fixAt 0 0 None]
       initialState) = Some 45%Q.
Proof.
  split.
  - apply (proj1 (proj2 (heading_after_run SmallAngle.sin SmallAngle.cos
                           SmallAngle.sqrt SmallAngle.atan2 SmallAngle.PI
                           eastwardPath
                           [fixAt 0 0 (Some 90); fixNullHeading 0 0]
                           initialState))
             [fixAt 0 0 (Some 90)] (fixNullHeading 0 0) [] None eq_refl eq_refl).
    intros q [].
  - apply (proj1 (proj2 (heading_after_run SmallAngle.sin SmallAngle.cos
                           SmallAngle.sqrt SmallAngle.atan2 SmallAngle.PI
                           eastwardPath
                           [fixNullHeading 0 0; fixAt 0 0 (Some 45);
                            fixAt 0 0 None]
                           initialState))
             [fixNullHeading 0 0] (fixAt 0 0 (Some 45)) [fixAt 0 0 None]
             (Some 45%Q) eq_refl eq_refl).
    intros q [<-|[]]. reflexivity.
Defined.

Lemma heading_never_negative_witness :
  exists h,
    userHeading
      (runFixes SmallAngle.sin SmallAngle.cos SmallAngle.sqrt SmallAngle.atan2
         SmallAngle.PI eastwardPath
         [fixAt 0 0 (Some 90); fixAt 0 0 (Some (-1)); fixAt 0 0 None]
         initialState) = Some h /\ (0 <= h)%Q.
Proof.
  exists 90%Q. split; [reflexivity|].
  apply (heading_never_negative SmallAngle.sin SmallAngle.cos SmallAngle.sqrt
           SmallAngle.atan2 SmallAngle.PI eastwardPath
           [fixAt 0 0 (Some 90); fixAt 0 0 (Some (-1)); fixAt 0 0 None]
           initialState).
  - intros h H. discriminate H.
  - reflexivity.
Defined.

Lemma fix_forgets_earlier_state_witness :
  let elsewhere :=
    SmallAngle.onFix eastwardPath (fixAt (1 # 1000) 0 None) initialState in
  SmallAngle.onFix eastwardPath (fixAt 0 0 (Some 90)) initialState
  = SmallAngle.onFix eastwardPath (fixAt 0 0 (Some 90)) elsewhere.
Proof.
  intros elsewhere.
  apply (fix_forgets_earlier_state SmallAngle.sin SmallAngle.cos SmallAngle.sqrt
           SmallAngle.atan2 SmallAngle.PI eastwardPath (fixAt 0 0 (Some 90))
           initialState elsewhere).
  - discriminate.
  - reflexivity.
  - reflexivity.
  - reflexivity.
Defined.

Lemma flags_match_instruction_witness :
  let atEnd :=
    SmallAngle.onFix northwardPath (fixAt (1 # 1000) 0 None) initialState in
  movementInstruction atEnd = "You have reached the waypoint"
  /\ arriveAtDestination atEnd = true.
Proof.
  intros atEnd.
  assert (Hne : northwardPath <> []) by discriminate.
  destruct (flags_match_instruction SmallAngle.sin SmallAngle.cos
              SmallAngle.sqrt SmallAngle.atan2 SmallAngle.PI northwardPath
              (fixAt (1 # 1000) 0 None) initialState Hne) as [[_ M] _].
  split; [apply M|]; vm_compute; reflexivity.
Defined.

Lemma final_arrival_implies_destination_witness :
  let pathCoordinates := transformToCoordinates northwardPath in
  let atEnd :=
    SmallAngle.onFix (screenPathNodes pathCoordinates)
      (fixAt (1 # 1000) 0 None) initialState in
  arrivednextNode atEnd = true /\ arriveAtDestination atEnd = true.
Proof.
  intros pathCoordinates atEnd.
  destruct (final_arrival_implies_destination SmallAngle.sin SmallAngle.cos
              SmallAngle.sqrt SmallAngle.atan2 SmallAngle.PI pathCoordinates
              (fixAt (1 # 1000) 0 None) initialState false)
    as [A [D _]]; [vm_compute; reflexivity|].
  split; [exact A | exact D].
Defined.

(** ** The target node and the nearest node *)

Section EngineTargets.

Variables Math_sin Math_cos Math_sqrt : number -> number.
Variable Math_atan2 : number -> number -> number.
Variable Math_PI : number.

Let distanceOf := calculateDistance Math_sin Math_cos Math_sqrt Math_atan2 Math_PI.
Let fix_ := onFix Math_sin Math_cos Math_sqrt Math_atan2 Math_PI.

(** X15.  The engine steers to the node after the nearest one, so after a
    fix on a non-empty list the published distance is never less than the
    distance to the nearest node, and equals it when the nearest node is
    the last.  Hence "arrived at next" is only set while the nearest node
    is within 15 m as well. *)
Theorem distance_at_least_nearest (pathNodes : list PathNode)
    (position : Position.t) (st : HookState) :
  pathNodes <> [] ->
  let st' := fix_ pathNodes position st in
  exists nearest nearestNode,
    nearestNodeIndex st' = Some nearest /\
    nth_error pathNodes nearest = Some nearestNode /\
    (distanceTo distanceOf (locationOf position) nearestNode <= distance st')%Q /\
    ((nearest + 1 = List.length pathNodes)%nat ->
     distance st' = distanceTo distanceOf (locationOf position) nearestNode) /\
    (arrivednextNode st' = true ->
     (distanceTo distanceOf (locationOf position) nearestNode < 15)%Q).
Proof.
  intros Hne st'.
  destruct (findNearestNode_Some distanceOf (locationOf position) pathNodes Hne)
    as [i [node [Ei [Ni [Li [Min _]]]]]].
  destruct (onFix_state Math_sin Math_cos Math_sqrt Math_atan2 Math_PI
              pathNodes position st Hne) as [nearest [nextNode [E [L [N S]]]]].
  fold distanceOf in E. rewrite Ei in E. injection E as <-.
  fold fix_ in S. fold st' in S.
  exists i, node. rewrite S. cbv zeta. simpl. fold distanceOf.
  pose proof (Min _ _ N) as Le.
  repeat split; try assumption.
  - intros Last.
    assert (Nx : nextIndexOf i pathNodes = i).
    { unfold nextIndexOf, lastIndex.
      destruct (Z.ltb_spec (Z.of_nat i) (Z.of_nat (List.length pathNodes) - 1));
        [lia | reflexivity]. }
    rewrite Nx in N. congruence.
  - intros A. apply ltb_lt in A. lra.
Qed.

(** X16.  On a path of a single node the engine targets that node: both
    indices are 0 and the two arrival flags coincide. *)
Theorem single_node_path (only : PathNode) (position : Position.t)
    (st : HookState) :
  let st' := fix_ [only] position st in
  nearestNodeIndex st' = Some 0%nat /\
  NavigationOutput.nextNodeIndex (render [only] st') = Some 0%nat /\
  distance st' = distanceTo distanceOf (locationOf position) only /\
  arriveAtDestination st' = arrivednextNode st' /\
  (arriveAtDestination st' = true <->
   (distanceTo distanceOf (locationOf position) only < 15)%Q).
Proof.
  intros st'.
  destruct (onFix_state Math_sin Math_cos Math_sqrt Math_atan2 Math_PI
              [only] position st) as [nearest [nextNode [E [_ [N S]]]]];
    [discriminate|].
  simpl in E. injection E as <-. simpl in N. injection N as <-.
  fold fix_ in S. fold st' in S. rewrite S. cbv zeta. simpl.
  fold distanceOf.
  repeat split.
  - intros A. now apply ltb_lt.
  - intros A. now apply ltb_lt.
Qed.

End EngineTargets.

Lemma distance_at_least_nearest_witness :
  let st' := SmallAngle.onFix eastwardPath (fixAt 0 0 None) initialState in
  nearestNodeIndex st' = Some 0%nat /\ (0 <= distance st')%Q.
Proof.
  intros st'.
  assert (Hne : eastwardPath <> []) by discriminate.
  destruct (distance_at_least_nearest SmallAngle.sin SmallAngle.cos
              SmallAngle.sqrt SmallAngle.atan2 SmallAngle.PI eastwardPath
              (fixAt 0 0 None) initialState Hne)
    as [nearest [node [I [N [Le _]]]]].
  vm_compute in I. injection I as <-.
  simpl in N. injection N as <-.
  split; [reflexivity|].
  eapply Qle_trans; [|exact Le]. vm_compute. discriminate.
Defined.
